(** * Fraction of native contacts (Best, Hummer and Eaton Q)

    A shallow embedding of the notebook function [best_hummer_q(traj, native)]
    and the properties its specification states about it.

    Numbers.  The arrays of the program hold float32 values; they are
    idealised here as real numbers, so that the rounding of the arithmetic
    is not modelled.  What the observable behaviour of the program depends
    on is kept:
    - [np.exp] leaves the finite float32 range for large arguments: the
      entry becomes [inf], numpy reports it on stderr ("RuntimeWarning:
      overflow encountered in exp", as recorded in the notebook's own
      output) without raising, and [1.0 / (1 + inf)] is exactly 0;
    - [np.mean] over an empty axis is 0/0, that is [nan];
    - the scalar of a comparison with a float32 array is cast to float32.

    Effects.  The function prints the number of native contacts, may emit
    the overflow warning, and the library calls it makes may raise; the
    model threads a log of these events and an exception through a small
    monad.  The log records these two kinds of event only: the warnings
    that [np.mean] adds when it returns [nan] for an empty axis are not
    part of it.

    Library calls ([numpy], [mdtraj], [itertools]) are modelled in modules
    of the same names, restricted to the array shapes the function uses.
    A structure may carry a periodic unit cell, modelled for rectangular
    boxes: [md.compute_distances] is called with its default
    [periodic=True], and then returns minimum-image distances. *)

From Stdlib Require Import Reals Lra Lia List ZArith Bool Arith Sorted.
Import ListNotations.

(** ** Exceptions, output and warnings *)

Inductive exn : Type :=
| IndexError
| ValueError.

Inductive event : Type :=
| Stdout_native_contacts (n : nat)   (* print("Number of native contacts", n) *)
| RuntimeWarning_overflow_exp.       (* overflow encountered in exp *)

(** A computation yields the events it produced and either the exception
    it raised or its value. *)
Definition M (A : Type) : Type := (list event * (exn + A))%type.

Definition ret {A} (a : A) : M A := ([], inr a).

Definition raise {A} (e : exn) : M A := ([], inl e).

Definition tell (ev : event) : M unit := ([ev], inr tt).

Definition bind {A B} (m : M A) (k : A -> M B) : M B :=
  match m with
  | (l, inl e) => (l, inl e)
  | (l, inr a) => (l ++ fst (k a), snd (k a))
  end.

Declare Scope py_scope.
Delimit Scope py_scope with py.
Notation "x <- c ;; k" := (bind c (fun x => k))
  (at level 61, c at next level, right associativity) : py_scope.
Notation "c ;;; k" := (bind c (fun _ => k))
  (at level 61, right associativity) : py_scope.

Open Scope R_scope.

(** ** Rounding *)

(** The largest integer not above [x]. *)
Definition floor (x : R) : Z := (up x - 1)%Z.

(** The integer nearest to [x], a tie going to the even one. *)
Definition round_half_even (x : R) : Z :=
  let n := floor x in
  if Rlt_dec (x - IZR n) (1 / 2) then n
  else if Rlt_dec (1 / 2) (x - IZR n) then (n + 1)%Z
  else if Z.even n then n else (n + 1)%Z.

(** ** itertools *)

Module itertools.

(** [combinations(l, 2)]: the pairs of elements of [l] taken at two
    positions, the first before the second, in lexicographic order of the
    positions. *)
Fixpoint combinations2 {A} (l : list A) : list (A * A) :=
  match l with
  | [] => []
  | x :: xs => map (pair x) xs ++ combinations2 xs
  end.

End itertools.

(** ** numpy *)

Module np.

(** A scalar result: a finite value or [nan]. *)
Inductive npfloat : Type :=
| finite (x : R)
| nan.

(** A two-dimensional array of floats of shape (n, k), as its n rows. *)
Definition matrix : Type := list (list R).

(** An entry that may have overflowed: a finite value or [inf]. *)
Inductive overflowing : Type :=
| fin (x : R)
| inf.

(** [np.array(l)] for a list of index pairs: shape (len(l), 2), except
    that [np.array([])] is the one-dimensional empty array of shape (0,). *)
Inductive pairs : Type :=
| Array1
| Array2 (rows : list (nat * nat)).

Definition array (l : list (nat * nat)) : pairs :=
  match l with
  | [] => Array1
  | _ :: _ => Array2 l
  end.

Definition len (a : pairs) : nat :=
  match a with
  | Array1 => 0
  | Array2 rows => length rows
  end.

Definition Rltb (x y : R) : bool := if Rlt_dec x y then true else false.

(** The exponent of the power of two at or below the magnitude of [x]. *)
Definition binade (x : R) : Z := floor (ln (Rabs x) / ln 2).

(** [np.float32(x)] for [x] within the float32 range: the nearest number
    with a significand of 24 bits and an exponent from -126 on. *)
Definition float32 (x : R) : R :=
  let e := (Z.max (binade x) (-126) - 23)%Z in
  IZR (round_half_even (x / powerRZ 2 e)) * powerRZ 2 e.

(** [a < c] for a one-dimensional float32 array and a Python scalar, which
    is cast to float32 for the comparison. *)
Definition less (a : list R) (c : R) : list bool :=
  map (fun x => Rltb x (float32 c)) a.

Fixpoint select {A} (rows : list A) (mask : list bool) : list A :=
  match rows, mask with
  | x :: rows', b :: mask' =>
      if b then x :: select rows' mask' else select rows' mask'
  | _, _ => []
  end.

(** [a[mask]]: the rows of [a] at which the boolean mask holds. *)
Definition getitem_mask (a : pairs) (mask : list bool) : pairs :=
  match a with
  | Array1 => Array1
  | Array2 rows => Array2 (select rows mask)
  end.

(** [m[i]]: row [i] of a matrix. *)
Definition getitem (m : matrix) (i : nat) : M (list R) :=
  match nth_error m i with
  | Some row => ret row
  | None => raise IndexError
  end.

(** [c * a] for a scalar and a matrix. *)
Definition smul (c : R) (a : matrix) : matrix := map (map (Rmult c)) a.

Definition sub_row (x y : list R) : list R :=
  map (fun xy => fst xy - snd xy) (combine x y).

(** [a - b] for [a] of shape (n, k) and [b] of shape (1, k): the single row
    of [b] is broadcast along the first axis.  Otherwise the shapes are
    equal and the difference is taken row by row. *)
Definition sub (a b : matrix) : matrix :=
  match b with
  | [b0] => map (fun row => sub_row row b0) a
  | _ => map (fun ab => sub_row (fst ab) (snd ab)) (combine a b)
  end.

(** The largest finite float32. *)
Definition FLT_MAX : R := (2 - / 2 ^ 23) * 2 ^ 127.

Definition exp_overflows (x : R) : bool := Rltb FLT_MAX (Rtrigo_def.exp x).

(** The exponential of one entry: [inf] past the float32 range. *)
Definition exp1 (x : R) : overflowing :=
  if exp_overflows x then inf else fin (Rtrigo_def.exp x).

(** [np.exp(a)], elementwise and unguarded: when some element leaves the
    float32 range numpy emits one warning for the call and goes on. *)
Definition exp (a : matrix) : M (list (list overflowing)) :=
  ((if existsb (existsb exp_overflows) a
    then tell RuntimeWarning_overflow_exp
    else ret tt) ;;;
   ret (map (map exp1) a))%py.

(** [c + y] and [c / y] for a finite scalar [c]: [c + inf] is [inf] and
    [c / inf] is 0. *)
Definition add1 (c : R) (y : overflowing) : overflowing :=
  match y with
  | fin v => fin (c + v)
  | inf => inf
  end.

Definition div1 (c : R) (y : overflowing) : R :=
  match y with
  | fin v => c / v
  | inf => 0
  end.

(** [c + a] and [c / a] for a scalar and an array. *)
Definition sadd (c : R) (a : list (list overflowing)) : list (list overflowing) :=
  map (map (add1 c)) a.

Definition sdiv (c : R) (a : list (list overflowing)) : matrix :=
  map (map (div1 c)) a.

Definition sum (row : list R) : R := fold_right Rplus 0 row.

Definition mean_row (row : list R) : npfloat :=
  match row with
  | [] => nan
  | _ :: _ => finite (sum row / INR (length row))
  end.

(** [np.mean(a, axis=1)]: one mean per row. *)
Definition mean_axis1 (a : matrix) : list npfloat := map mean_row a.

(** [a[f, k]], when the indices are within the shape. *)
Definition item (a : matrix) (f k : nat) : option R :=
  match nth_error a f with
  | Some row => nth_error row k
  | None => None
  end.

End np.

(** ** mdtraj *)

Module md.

Definition point : Type := (R * R * R)%type.

Record Residue : Type := { index : Z; is_protein : bool }.

(** An atom: whether its element is hydrogen, and its residue. *)
Record Atom : Type := { is_hydrogen : bool; residue : Residue }.

(** The atoms of the selection 'heavy': the non-hydrogen atoms of protein
    residues. *)
Definition heavy (a : Atom) : bool :=
  negb (is_hydrogen a) && is_protein (residue a).

Definition Topology : Type := list Atom.

(** A rectangular periodic box, by its three edge lengths. *)
Definition Box : Type := (R * R * R)%type.

(** A trajectory: its topology, a coordinate array of shape
    (n_frames, n_atoms, 3), given by its indexing function, and the unit
    cell of every frame when the trajectory has unit cells.  The atom
    count of the array is that of the topology, as the toolkit enforces. *)
Record Trajectory : Type := {
  topology : Topology;
  n_frames : nat;
  xyz : nat -> nat -> point;
  unitcell_lengths : option (nat -> Box)
}.

Definition n_atoms (t : Trajectory) : nat := length (topology t).

(** The unit cell of frame [f], if any. *)
Definition unitcell (t : Trajectory) (f : nat) : option Box :=
  option_map (fun box => box f) (unitcell_lengths t).

Definition hydrogen : Atom :=
  {| is_hydrogen := true; residue := {| index := 0; is_protein := false |} |}.

(** [topology.atom(i)].  It is only called on indices returned by
    [select_atom_indices], which are in range. *)
Definition atom (top : Topology) (i : nat) : Atom := nth i top hydrogen.

(** [topology.select_atom_indices('heavy')], in increasing order. *)
Definition select_atom_indices_heavy (top : Topology) : list nat :=
  filter (fun i => heavy (atom top i)) (seq 0 (length top)).

(** [t[k]]: the trajectory made of frame [k] alone, with its unit cell. *)
Definition getitem (t : Trajectory) (k : nat) : M Trajectory :=
  if k <? n_frames t
  then ret {| topology := topology t; n_frames := 1; xyz := fun _ => xyz t k;
              unitcell_lengths := option_map (fun box _ => box k) (unitcell_lengths t) |}
  else raise IndexError.

(** The Euclidean distance. *)
Definition distance (a b : point) : R :=
  let '(ax, ay, az) := a in
  let '(bx, by_, bz) := b in
  sqrt ((ax - bx) ^ 2 + (ay - by_) ^ 2 + (az - bz) ^ 2).

(** A component of a displacement, brought to its nearest periodic image. *)
Definition wrap (len d : R) : R := d - IZR (round_half_even (d / len)) * len.

(** The distance under the minimum image convention in a rectangular box. *)
Definition minimum_image_distance (box : Box) (a b : point) : R :=
  let '(ax, ay, az) := a in
  let '(bx, by_, bz) := b in
  let '(lx, ly, lz) := box in
  sqrt (wrap lx (bx - ax) ^ 2 + wrap ly (by_ - ay) ^ 2 + wrap lz (bz - az) ^ 2).

Definition in_range (t : Trajectory) (p : nat * nat) : bool :=
  (fst p <? n_atoms t) && (snd p <? n_atoms t).

(** The distance of a pair in a frame, as [compute_distances] gives it with
    [periodic=True]: under the unit cell of the frame when the trajectory
    has unit cells, and Euclidean otherwise. *)
Definition pair_distance (t : Trajectory) (f : nat) (p : nat * nat) : R :=
  match unitcell_lengths t with
  | Some box => minimum_image_distance (box f) (xyz t f (fst p)) (xyz t f (snd p))
  | None => distance (xyz t f (fst p)) (xyz t f (snd p))
  end.

(** [md.compute_distances(t, atom_pairs)]: shape (n_frames, len(atom_pairs)).
    The pairs must be a two-dimensional array of indices below the atom
    count of [t]; otherwise ValueError is raised. *)
Definition compute_distances (t : Trajectory) (atom_pairs : np.pairs)
  : M np.matrix :=
  match atom_pairs with
  | np.Array1 => raise ValueError
  | np.Array2 rows =>
      if forallb (in_range t) rows
      then ret (map (fun f => map (pair_distance t f) rows) (seq 0 (n_frames t)))
      else raise ValueError
  end.

End md.

(** ** The function *)

Definition BETA_CONST : R := 50.
Definition LAMBDA_CONST : R := 1.8.
Definition NATIVE_CUTOFF : R := 0.45.

Definition residue_index (native : md.Trajectory) (i : nat) : Z :=
  md.index (md.residue (md.atom (md.topology native) i)).

(** The condition of the list comprehension (lines 47-48). *)
Definition separated (native : md.Trajectory) (p : nat * nat) : bool :=
  (3 <? Z.abs (residue_index native (fst p) - residue_index native (snd p)))%Z.

(** The local variables of lines 42-53. *)
Record selection : Type := {
  heavy : list nat;
  heavy_pairs : np.pairs;
  heavy_pairs_distances : list R;
  native_contacts : np.pairs
}.

(** Lines 42-53: the native contacts of the first native frame. *)
Definition select_native_contacts (native : md.Trajectory) : M selection :=
  (let heavy := md.select_atom_indices_heavy (md.topology native) in
   let heavy_pairs :=
     np.array (filter (separated native) (itertools.combinations2 heavy)) in
   native0 <- md.getitem native 0 ;;
   d <- md.compute_distances native0 heavy_pairs ;;
   heavy_pairs_distances <- np.getitem d 0 ;;
   let native_contacts :=
     np.getitem_mask heavy_pairs (np.less heavy_pairs_distances NATIVE_CUTOFF) in
   ret {| heavy := heavy; heavy_pairs := heavy_pairs;
          heavy_pairs_distances := heavy_pairs_distances;
          native_contacts := native_contacts |})%py.

(** The local variables of the function when it returns. *)
Record locals : Type := {
  selected : selection;
  r : np.matrix;
  r0 : np.matrix;
  s : np.matrix;          (* the argument of np.mean on line 61 *)
  q : list np.npfloat
}.

(** Lines 42-62, with the values of all local variables. *)
Definition best_hummer_q_locals (traj native : md.Trajectory) : M locals :=
  (sel <- select_native_contacts native ;;
   let native_contacts := native_contacts sel in
   tell (Stdout_native_contacts (np.len native_contacts)) ;;;
   r <- md.compute_distances traj native_contacts ;;
   native0 <- md.getitem native 0 ;;
   r0 <- md.compute_distances native0 native_contacts ;;
   e <- np.exp (np.smul BETA_CONST (np.sub r (np.smul LAMBDA_CONST r0))) ;;
   let s := np.sdiv 1 (np.sadd 1 e) in
   let q := np.mean_axis1 s in
   ret {| selected := sel; r := r; r0 := r0; s := s; q := q |})%py.

(** [best_hummer_q(traj, native)] returns [q]. *)
Definition best_hummer_q (traj native : md.Trajectory) : M (list np.npfloat) :=
  (l <- best_hummer_q_locals traj native ;; ret (q l))%py.

(** ** The specification's vocabulary *)

(** Distance of a pair in the first native frame, [r0[p]]. *)
Definition native_distance (native : md.Trajectory) (p : nat * nat) : R :=
  md.pair_distance native 0 p.

(** Distance of a pair in frame [f] of the trajectory, [r_f[p]]. *)
Definition frame_distance (traj : md.Trajectory) (f : nat) (p : nat * nat) : R :=
  md.pair_distance traj f p.

(** The Euclidean distance of a pair in a frame. *)
Definition euclidean (t : md.Trajectory) (f : nat) (p : nat * nat) : R :=
  md.distance (md.xyz t f (fst p)) (md.xyz t f (snd p)).

(** The per-pair score [s_f[p]] of the specification as a function of the
    two distances, with beta = 50 and lambda_factor = 1.8. *)
Definition sigmoid (rf r0p : R) : R := 1 / (1 + exp (50 * (rf - 1.8 * r0p))).

(** The per-pair score as line 61 evaluates it: 0 when [exp] overflows. *)
Definition score (rf r0p : R) : R :=
  np.div1 1 (np.add1 1 (np.exp1 (BETA_CONST * (rf - LAMBDA_CONST * r0p)))).

Definition pair_score (traj native : md.Trajectory) (f : nat) (p : nat * nat) : R :=
  score (frame_distance traj f p) (native_distance native p).

(** The arithmetic mean of a non-empty list. *)
Definition mean (l : list R) : R := np.sum l / INR (length l).

Definition close_in_native (native : md.Trajectory) (p : nat * nat) : bool :=
  np.Rltb (native_distance native p) (np.float32 NATIVE_CUTOFF).

(** [select_native_contacts] in the specification's words: enumerate the
    pairs of heavy atoms, keep those separated by more than three residues
    and closer than the cutoff in the first native frame. *)
Definition select_native_contacts_spec (native : md.Trajectory) : list (nat * nat) :=
  filter (fun p => separated native p && close_in_native native p)
         (itertools.combinations2
            (md.select_atom_indices_heavy (md.topology native))).

(** What makes (i, j) a native contact: two atoms of the selection
    'heavy', that is non-hydrogen atoms of protein residues, in increasing
    order, more than three residues apart, whose distance in the first
    native frame, as the toolkit computes it, is below the cutoff as the
    comparison sees it. *)
Definition native_contact (native : md.Trajectory) (i j : nat) : Prop :=
  (i < j)%nat /\
  (i < md.n_atoms native)%nat /\ (j < md.n_atoms native)%nat /\
  md.is_hydrogen (md.atom (md.topology native) i) = false /\
  md.is_protein (md.residue (md.atom (md.topology native) i)) = true /\
  md.is_hydrogen (md.atom (md.topology native) j) = false /\
  md.is_protein (md.residue (md.atom (md.topology native) j)) = true /\
  (Z.abs (residue_index native i - residue_index native j) > 3)%Z /\
  native_distance native (i, j) < np.float32 0.45.

(** An atom that occurs in some native contact. *)
Definition contact_atom (native : md.Trajectory) (a : nat) : Prop :=
  exists p, In p (select_native_contacts_spec native) /\ (a = fst p \/ a = snd p).

(** A score within the closed interval [0, 1]. *)
Definition in_unit_interval (x : np.npfloat) : Prop :=
  match x with
  | np.finite v => 0 <= v <= 1
  | np.nan => False
  end.

(** ** The values a returning run computes *)

(** The pairs that pass the residue filter of lines 45-48. *)
Definition heavy_pairs_list (native : md.Trajectory) : list (nat * nat) :=
  filter (separated native)
         (itertools.combinations2
            (md.select_atom_indices_heavy (md.topology native))).

(** The first frame of the native structure, [native[0]]. *)
Definition first_frame (native : md.Trajectory) : md.Trajectory :=
  {| md.topology := md.topology native;
     md.n_frames := 1;
     md.xyz := fun _ => md.xyz native 0;
     md.unitcell_lengths :=
       option_map (fun box _ => box 0%nat) (md.unitcell_lengths native) |}.

Definition returned_selection (native : md.Trajectory) : selection :=
  {| heavy := md.select_atom_indices_heavy (md.topology native);
     heavy_pairs := np.Array2 (heavy_pairs_list native);
     heavy_pairs_distances := map (native_distance native) (heavy_pairs_list native);
     native_contacts := np.Array2 (select_native_contacts_spec native) |}.

(** The exponent argument of the sigmoid, as line 61 computes it. *)
Definition exponent (traj native : md.Trajectory) (f : nat) (p : nat * nat) : R :=
  BETA_CONST * (frame_distance traj f p - LAMBDA_CONST * native_distance native p).

Definition exponents (traj native : md.Trajectory) : np.matrix :=
  map (fun f => map (exponent traj native f) (select_native_contacts_spec native))
      (seq 0 (md.n_frames traj)).

Definition overflow_log (a : np.matrix) : list event :=
  if existsb (existsb np.exp_overflows) a then [RuntimeWarning_overflow_exp] else [].

Definition scores (traj native : md.Trajectory) : list np.npfloat :=
  map (fun f => np.mean_row
                  (map (pair_score traj native f) (select_native_contacts_spec native)))
      (seq 0 (md.n_frames traj)).

Definition returned_locals (traj native : md.Trajectory) : locals :=
  let nc := select_native_contacts_spec native in
  let frames := seq 0 (md.n_frames traj) in
  {| selected := returned_selection native;
     r := map (fun f => map (frame_distance traj f) nc) frames;
     r0 := [map (native_distance native) nc];
     s := map (fun f => map (pair_score traj native f) nc) frames;
     q := scores traj native |}.

(** The behaviour of a call, by cases on its inputs. *)
Definition outcome (traj native : md.Trajectory) : M (list np.npfloat) :=
  if (md.n_frames native =? 0)%nat then ([], inl IndexError)
  else
    match heavy_pairs_list native with
    | [] => ([], inl ValueError)
    | _ :: _ =>
        if forallb (md.in_range traj) (select_native_contacts_spec native)
        then (Stdout_native_contacts (length (select_native_contacts_spec native))
                :: overflow_log (exponents traj native),
              inr (scores traj native))
        else ([Stdout_native_contacts (length (select_native_contacts_spec native))],
              inl ValueError)
    end.

(** ** Small structures

    All atoms lie on the first coordinate axis. *)

Definition on_axis (x : R) : md.point := (x, 0, 0).

(** A non-hydrogen atom of a protein residue. *)
Definition heavy_atom (res : Z) : md.Atom :=
  {| md.is_hydrogen := false;
     md.residue := {| md.index := res; md.is_protein := true |} |}.

(** A hydrogen of a protein residue. *)
Definition hydrogen_atom (res : Z) : md.Atom :=
  {| md.is_hydrogen := true;
     md.residue := {| md.index := res; md.is_protein := true |} |}.

(** A non-hydrogen atom of a residue that is not of a protein, as of a
    ligand or of water. *)
Definition ligand_atom (res : Z) : md.Atom :=
  {| md.is_hydrogen := false;
     md.residue := {| md.index := res; md.is_protein := false |} |}.

(** Four atoms: a heavy atom and a hydrogen of residue 0, a heavy atom of
    residue 4 and a heavy atom of residue 8. *)
Definition small_topology : md.Topology :=
  [heavy_atom 0; hydrogen_atom 0; heavy_atom 4; heavy_atom 8].

(** The second heavy atom at 0.3 nm from the first, the third at 1 nm. *)
Definition small_frame (a : nat) : md.point :=
  match a with
  | 0 => on_axis 0
  | 1 => on_axis 0.1
  | 2 => on_axis 0.3
  | _ => on_axis 1
  end%nat.

Definition small_native : md.Trajectory :=
  {| md.topology := small_topology; md.n_frames := 1; md.xyz := fun _ => small_frame;
     md.unitcell_lengths := None |}.

(** The same atoms, the second heavy atom moved to 5.4 nm from the first:
    ten times the tolerance-scaled native distance 1.8 * 0.3. *)
Definition unfolded_frame (a : nat) : md.point :=
  match a with
  | 0 => on_axis 0
  | 1 => on_axis 0.1
  | 2 => on_axis 5.4
  | _ => on_axis 6
  end%nat.

Definition unfolded : md.Trajectory :=
  {| md.topology := small_topology; md.n_frames := 1; md.xyz := fun _ => unfolded_frame;
     md.unitcell_lengths := None |}.

(** The second heavy atom moved further, to 6 nm from the first. *)
Definition torn_frame (a : nat) : md.point :=
  match a with
  | 0 => on_axis 0
  | 1 => on_axis 0.1
  | 2 => on_axis 6
  | _ => on_axis 7
  end%nat.

Definition unfolded_then_torn : md.Trajectory :=
  {| md.topology := small_topology;
     md.n_frames := 2;
     md.xyz := fun f => match f with 0%nat => unfolded_frame | _ => torn_frame end;
     md.unitcell_lengths := None |}.

(** The small native structure with its hydrogen moved. *)
Definition moved_frame (a : nat) : md.point :=
  match a with
  | 0 => on_axis 0
  | 1 => on_axis 0.2
  | 2 => on_axis 0.3
  | _ => on_axis 1
  end%nat.

Definition small_moved : md.Trajectory :=
  {| md.topology := small_topology; md.n_frames := 1; md.xyz := fun _ => moved_frame;
     md.unitcell_lengths := None |}.

(** A trajectory of two frames with another topology: five atoms, in
    residues 7 and 9. *)
Definition other_topology : md.Topology :=
  [hydrogen_atom 7; heavy_atom 7; heavy_atom 7; hydrogen_atom 9; heavy_atom 9].

Definition other : md.Trajectory :=
  {| md.topology := other_topology;
     md.n_frames := 2;
     md.xyz := fun f => match f with 0%nat => small_frame | _ => unfolded_frame end;
     md.unitcell_lengths := None |}.

(** A trajectory of two atoms only. *)
Definition short : md.Trajectory :=
  {| md.topology := [heavy_atom 0; hydrogen_atom 0];
     md.n_frames := 1; md.xyz := fun _ => small_frame;
     md.unitcell_lengths := None |}.

(** Two heavy atoms of residues 0 and 4, 1 nm apart: a heavy pair passes
    the residue filter and none the distance filter. *)
Definition far_frame (a : nat) : md.point :=
  match a with
  | 0 => on_axis 0
  | _ => on_axis 1
  end%nat.

Definition far_native : md.Trajectory :=
  {| md.topology := [heavy_atom 0; heavy_atom 4];
     md.n_frames := 1; md.xyz := fun _ => far_frame;
     md.unitcell_lengths := None |}.

Definition far_twice : md.Trajectory :=
  {| md.topology := [heavy_atom 0; heavy_atom 4];
     md.n_frames := 2; md.xyz := fun _ => far_frame;
     md.unitcell_lengths := None |}.

(** Four heavy atoms in two residues: no pair passes the residue filter. *)
Definition two_residues : md.Trajectory :=
  {| md.topology := [heavy_atom 0; heavy_atom 0; heavy_atom 1; heavy_atom 1];
     md.n_frames := 1; md.xyz := fun _ => small_frame;
     md.unitcell_lengths := None |}.

(** The trajectory [t] with its topology replaced. *)
Definition with_topology (t : md.Trajectory) (top : md.Topology) : md.Trajectory :=
  {| md.topology := top; md.n_frames := md.n_frames t; md.xyz := md.xyz t;
     md.unitcell_lengths := md.unitcell_lengths t |}.

(** The small structure followed by its unfolded conformation. *)
Definition small_then_unfolded : md.Trajectory :=
  {| md.topology := small_topology;
     md.n_frames := 2;
     md.xyz := fun f => match f with 0%nat => small_frame | _ => unfolded_frame end;
     md.unitcell_lengths := None |}.

(** A trajectory of the small topology without any frame. *)
Definition no_frames : md.Trajectory :=
  {| md.topology := small_topology; md.n_frames := 0; md.xyz := fun _ => small_frame;
     md.unitcell_lengths := None |}.

(** The atoms of the small topology close together: the heavy atoms at 0,
    0.3 and 0.4 nm, all three heavy pairs in contact. *)
Definition compact_frame (a : nat) : md.point :=
  match a with
  | 0 => on_axis 0
  | 1 => on_axis 0.1
  | 2 => on_axis 0.3
  | _ => on_axis 0.4
  end%nat.

Definition compact_native : md.Trajectory :=
  {| md.topology := small_topology; md.n_frames := 1; md.xyz := fun _ => compact_frame;
     md.unitcell_lengths := None |}.

(** The compact structure followed by the unfolded conformation. *)
Definition compact_then_unfolded : md.Trajectory :=
  {| md.topology := small_topology;
     md.n_frames := 2;
     md.xyz := fun f => match f with 0%nat => compact_frame | _ => unfolded_frame end;
     md.unitcell_lengths := None |}.

(** The small topology in a cubic periodic box of edge 2 nm, the second
    heavy atom at 1.7 nm from the first: its nearest periodic image is at
    0.3 nm. *)
Definition boxed_frame (a : nat) : md.point :=
  match a with
  | 0 => on_axis 0
  | 1 => on_axis 0.1
  | 2 => on_axis 1.7
  | _ => on_axis 0.9
  end%nat.

Definition boxed : md.Trajectory :=
  {| md.topology := small_topology; md.n_frames := 1; md.xyz := fun _ => boxed_frame;
     md.unitcell_lengths := Some (fun _ => (2, 2, 2)) |}.

(** The same coordinates without unit cell. *)
Definition unboxed : md.Trajectory :=
  {| md.topology := small_topology; md.n_frames := 1; md.xyz := fun _ => boxed_frame;
     md.unitcell_lengths := None |}.

(** A protein atom of residue 0, a ligand atom of residue 5 at 0.3 nm from
    it, and a protein atom of residue 9 at 0.4 nm. *)
Definition ligand_frame (a : nat) : md.point :=
  match a with
  | 0 => on_axis 0
  | 1 => on_axis 0.3
  | _ => on_axis 0.4
  end%nat.

Definition ligand_native : md.Trajectory :=
  {| md.topology := [heavy_atom 0; ligand_atom 5; heavy_atom 9];
     md.n_frames := 1; md.xyz := fun _ => ligand_frame;
     md.unitcell_lengths := None |}.

(** Two heavy atoms of residues 0 and 4 whose distance is the float32
    nearest to 0.45, which is below 0.45. *)
Definition edge_frame (a : nat) : md.point :=
  match a with
  | 0 => on_axis 0
  | _ => on_axis (15099494 / 33554432)
  end%nat.

Definition edge_native : md.Trajectory :=
  {| md.topology := [heavy_atom 0; heavy_atom 4];
     md.n_frames := 1; md.xyz := fun _ => edge_frame;
     md.unitcell_lengths := None |}.

(** Two heavy atoms of residues 0 and 4 at the same position. *)
Definition coincident : md.Trajectory :=
  {| md.topology := [heavy_atom 0; heavy_atom 4];
     md.n_frames := 1; md.xyz := fun _ _ => on_axis 0;
     md.unitcell_lengths := None |}.

(** The small native structure in a cubic periodic box of edge 2 nm. *)
Definition small_boxed : md.Trajectory :=
  {| md.topology := small_topology; md.n_frames := 1; md.xyz := fun _ => small_frame;
     md.unitcell_lengths := Some (fun _ => (2, 2, 2)) |}.

(** The trajectory [t] without its unit cells. *)
Definition without_unitcell (t : md.Trajectory) : md.Trajectory :=
  {| md.topology := md.topology t; md.n_frames := md.n_frames t; md.xyz := md.xyz t;
     md.unitcell_lengths := None |}.

(** Two points less than half a box apart along every axis. *)
Definition within_half_box (box : md.Box) (a b : md.point) : Prop :=
  let '(ax, ay, az) := a in
  let '(bx, by_, bz) := b in
  let '(lx, ly, lz) := box in
  Rabs (bx - ax) < lx / 2 /\ Rabs (by_ - ay) < ly / 2 /\ Rabs (bz - az) < lz / 2.

(** A structure of water alone: no atom of a protein. *)
Definition water : md.Trajectory :=
  {| md.topology := [ligand_atom 0; ligand_atom 4; ligand_atom 8];
     md.n_frames := 1; md.xyz := fun _ => small_frame;
     md.unitcell_lengths := None |}.

(** * Properties *)

(** ** The monad *)

Lemma bind_ret (A B : Type) (a : A) (k : A -> M B) : bind (ret a) k = k a.
Proof. unfold bind, ret. simpl. now destruct (k a). Qed.

Lemma bind_raise (A B : Type) (e : exn) (k : A -> M B) :
  bind (raise e) k = raise e.
Proof. reflexivity. Qed.

Lemma bind_tell (B : Type) (ev : event) (k : unit -> M B) l v :
  k tt = (l, v) -> bind (tell ev) k = (ev :: l, v).
Proof. intros H. unfold bind, tell. now rewrite H. Qed.

(** One step of a run whose first statement returned. *)
Ltac run_ret :=
  match goal with
  | |- bind (ret ?a) ?k = _ =>
      etransitivity; [exact (@bind_ret _ _ a k) | cbv beta]
  end.

(** ** Lists, masks and combinations *)

Section ListFacts.

Variable A : Type.

Lemma filter_filter (f g : A -> bool) (l : list A) :
  filter g (filter f l) = filter (fun x => f x && g x) l.
Proof.
  induction l as [|x l IH]; simpl; [reflexivity|].
  destruct (f x); simpl; [|exact IH].
  destruct (g x); simpl; now rewrite IH.
Qed.

Lemma select_map_mask (m : A -> bool) (l : list A) :
  np.select l (map m l) = filter m l.
Proof.
  induction l as [|x l IH]; simpl; [reflexivity|].
  destruct (m x); now rewrite IH.
Qed.

Lemma select_map_values (B : Type) (v : A -> B) (m : B -> bool) (l : list A) :
  np.select (map v l) (map m (map v l)) = map v (filter (fun x => m (v x)) l).
Proof.
  induction l as [|x l IH]; simpl; [reflexivity|].
  destruct (m (v x)); simpl; now rewrite IH.
Qed.

Lemma forallb_filter (f g : A -> bool) (l : list A) :
  forallb f l = true -> forallb f (filter g l) = true.
Proof.
  rewrite !forallb_forall. intros H x Hx.
  apply filter_In in Hx. now apply H.
Qed.

Lemma forallb_agree (f g : A -> bool) (l : list A) :
  (forall x, In x l -> f x = g x) -> forallb f l = forallb g l.
Proof.
  intros H. induction l as [|x l IH]; simpl; [reflexivity|].
  rewrite (H x) by now left. rewrite IH; [reflexivity|].
  intros y Hy. apply H. now right.
Qed.

Lemma in_combinations2_split (l : list A) (a b : A) :
  In (a, b) (itertools.combinations2 l) -> In a l /\ In b l.
Proof.
  induction l as [|x l IH]; simpl; [tauto|].
  rewrite in_app_iff, in_map_iff.
  intros [[y [E Hy]] | H].
  - inversion E; subst. auto.
  - destruct (IH H). auto.
Qed.

Lemma sub_row_map (g h : A -> R) (l : list A) :
  np.sub_row (map g l) (map h l) = map (fun p => g p - h p) l.
Proof.
  unfold np.sub_row.
  induction l as [|x l IH]; simpl; [reflexivity|]. now rewrite IH.
Qed.

End ListFacts.

(** On a strictly increasing list, [combinations2] enumerates exactly the
    pairs of members in increasing order. *)
Lemma in_combinations2_sorted (l : list nat) (i j : nat) :
  StronglySorted lt l ->
  In (i, j) (itertools.combinations2 l) <-> (In i l /\ In j l /\ (i < j)%nat).
Proof.
  induction 1 as [|x l Hs IH Hx]; simpl; [tauto|].
  rewrite in_app_iff, in_map_iff, IH.
  rewrite Forall_forall in Hx.
  split.
  - intros [[y [E Hy]] | [Hi [Hj Hlt]]].
    + inversion E; subst. auto.
    + auto.
  - intros [[Hi | Hi] [[Hj | Hj] Hlt]]; subst.
    + lia.
    + left. exists j. auto.
    + apply Hx in Hi. lia.
    + auto.
Qed.

Lemma seq_strongly_sorted (len start : nat) : StronglySorted lt (seq start len).
Proof.
  revert start. induction len as [|n IH]; intros start; simpl; constructor.
  - apply IH.
  - apply Forall_forall. intros y Hy. apply in_seq in Hy. lia.
Qed.

Lemma filter_strongly_sorted (f : nat -> bool) (l : list nat) :
  StronglySorted lt l -> StronglySorted lt (filter f l).
Proof.
  induction 1 as [|x l Hs IH Hx]; simpl; [constructor|].
  destruct (f x); [|exact IH].
  constructor; [exact IH|].
  rewrite Forall_forall in *. intros y Hy. apply filter_In in Hy.
  now apply Hx.
Qed.

Lemma nth_error_map_seq (B : Type) (g : nat -> B) (n f : nat) :
  nth_error (map g (seq 0 n)) f = if (f <? n)%nat then Some (g f) else None.
Proof.
  rewrite nth_error_map, nth_error_seq.
  now destruct (f <? n)%nat.
Qed.

(** ** Comparisons of reals *)

Lemma Rltb_true (x y : R) : x < y -> np.Rltb x y = true.
Proof. intros H. unfold np.Rltb. now destruct (Rlt_dec x y). Qed.

Lemma Rltb_false (x y : R) : ~ x < y -> np.Rltb x y = false.
Proof. intros H. unfold np.Rltb. now destruct (Rlt_dec x y). Qed.

Lemma Rltb_lt (x y : R) : np.Rltb x y = true <-> x < y.
Proof.
  unfold np.Rltb. destruct (Rlt_dec x y); split; intros; auto; discriminate.
Qed.

(** ** Rounding and the cutoff in float32 *)

Lemma floor_spec (x : R) : IZR (floor x) <= x < IZR (floor x) + 1.
Proof.
  unfold floor. rewrite minus_IZR. destruct (archimed x) as [H1 H2]. lra.
Qed.

Lemma floor_unique (x : R) (n : Z) : IZR n <= x < IZR n + 1 -> floor x = n.
Proof.
  intros [H1 H2]. pose proof (floor_spec x) as [H3 H4].
  assert (floor x < n + 1)%Z by (apply lt_IZR; rewrite plus_IZR; lra).
  assert (n < floor x + 1)%Z by (apply lt_IZR; rewrite plus_IZR; lra).
  lia.
Qed.

(** A real within one half of an integer rounds to it. *)
Lemma round_half_even_near (x : R) (n : Z) :
  Rabs (x - IZR n) < 1 / 2 -> round_half_even x = n.
Proof.
  intros H. apply Rabs_def2 in H. destruct H as [H1 H2].
  unfold round_half_even.
  destruct (Rle_lt_dec (IZR n) x) as [Hle|Hlt].
  - rewrite (floor_unique x n) by lra.
    destruct (Rlt_dec (x - IZR n) (1 / 2)); [reflexivity | lra].
  - rewrite (floor_unique x (n - 1)) by (rewrite minus_IZR; lra).
    rewrite minus_IZR.
    destruct (Rlt_dec (x - (IZR n - 1)) (1 / 2)); [lra|].
    destruct (Rlt_dec (1 / 2) (x - (IZR n - 1))); [f_equal; lia | lra].
Qed.

(** Rounding moves a real by at most one half. *)
Lemma round_half_even_error (x : R) : Rabs (x - IZR (round_half_even x)) <= 1 / 2.
Proof.
  unfold round_half_even. pose proof (floor_spec x) as [H1 H2].
  destruct (Rlt_dec (x - IZR (floor x)) (1 / 2)) as [Hlt|Hge].
  - apply Rabs_le. lra.
  - destruct (Rlt_dec (1 / 2) (x - IZR (floor x))) as [Hgt|Hle].
    + rewrite plus_IZR. apply Rabs_le. lra.
    + destruct (Z.even (floor x)).
      * apply Rabs_le. lra.
      * rewrite plus_IZR. apply Rabs_le. lra.
Qed.

Lemma binade_unique (x : R) (k : Z) :
  powerRZ 2 k <= x < powerRZ 2 (k + 1) -> np.binade x = k.
Proof.
  intros [H1 H2].
  assert (0 < powerRZ 2 k) as Hk by (apply powerRZ_lt; lra).
  assert (0 < x) as Hx by lra.
  unfold np.binade. rewrite (Rabs_pos_eq x) by lra.
  pose proof ln_lt_2 as Hl2. assert (0 < ln 2) as Hl by lra.
  apply floor_unique.
  assert (ln (powerRZ 2 k) = IZR k * ln 2) as E1.
  { rewrite powerRZ_Rpower by lra. apply ln_Rpower. }
  assert (ln (powerRZ 2 (k + 1)) = (IZR k + 1) * ln 2) as E2.
  { rewrite powerRZ_Rpower by lra. rewrite ln_Rpower, plus_IZR. reflexivity. }
  assert (ln (powerRZ 2 k) <= ln x) as L1.
  { destruct H1 as [H1|H1]; [left; now apply ln_increasing | right; now rewrite H1]. }
  assert (ln x < ln (powerRZ 2 (k + 1))) as L2 by now apply ln_increasing.
  rewrite E1 in L1. rewrite E2 in L2.
  split.
  - apply Rmult_le_reg_r with (ln 2); [exact Hl|].
    unfold Rdiv. rewrite Rmult_assoc, Rinv_l by lra. lra.
  - apply Rmult_lt_reg_r with (ln 2); [exact Hl|].
    unfold Rdiv. rewrite Rmult_assoc, Rinv_l by lra. lra.
Qed.

(** The cutoff as the comparison sees it: 15099494 / 2 ^ 25, which is
    0.449999988 to nine places. *)
Lemma float32_0_45 : np.float32 0.45 = 15099494 / 33554432.
Proof.
  unfold np.float32.
  rewrite (binade_unique 0.45 (-2)).
  - change (Z.max (-2) (-126) - 23)%Z with (-25)%Z.
    assert (powerRZ 2 (-25) = / 33554432) as E.
    { simpl. lra. }
    rewrite E.
    rewrite (round_half_even_near _ 15099494).
    + lra.
    + unfold Rdiv. rewrite Rinv_inv.
      apply Rabs_def1; lra.
  - simpl. lra.
Qed.

Lemma float32_cutoff : np.float32 NATIVE_CUTOFF = 15099494 / 33554432.
Proof. exact float32_0_45. Qed.

Lemma float32_cutoff_lt : np.float32 NATIVE_CUTOFF < 0.45.
Proof. rewrite float32_cutoff. lra. Qed.

(** Distances up to 0.4499 are below the cutoff, distances from 0.45 on
    are not. *)
Lemma below_cutoff (d : R) : d <= 0.4499 -> np.Rltb d (np.float32 NATIVE_CUTOFF) = true.
Proof. intros H. apply Rltb_true. rewrite float32_cutoff. lra. Qed.

Lemma above_cutoff (d : R) :
  15099494 / 33554432 <= d -> np.Rltb d (np.float32 NATIVE_CUTOFF) = false.
Proof. intros H. apply Rltb_false. rewrite float32_cutoff. lra. Qed.

(** ** Heavy atoms and native contacts *)

Lemma heavy_iff (a : md.Atom) :
  md.heavy a = true <-> md.is_hydrogen a = false /\ md.is_protein (md.residue a) = true.
Proof.
  unfold md.heavy. rewrite andb_true_iff, negb_true_iff. tauto.
Qed.

Lemma in_heavy (top : md.Topology) (i : nat) :
  In i (md.select_atom_indices_heavy top) <->
  (i < length top)%nat /\ md.heavy (md.atom top i) = true.
Proof.
  unfold md.select_atom_indices_heavy.
  rewrite filter_In, in_seq. intuition lia.
Qed.

Lemma heavy_sorted (top : md.Topology) :
  StronglySorted lt (md.select_atom_indices_heavy top).
Proof. apply filter_strongly_sorted, seq_strongly_sorted. Qed.

(** [topology.atom(i)] is only evaluated on valid indices, and the pairs
    handed to [md.compute_distances] on the native frame are in range. *)
Lemma heavy_pairs_in_range (native : md.Trajectory) :
  forallb (md.in_range native) (heavy_pairs_list native) = true.
Proof.
  apply forallb_forall. intros [i j] H.
  apply filter_In in H. destruct H as [H _].
  apply in_combinations2_split in H. destruct H as [Hi Hj].
  apply in_heavy in Hi, Hj.
  unfold md.in_range, md.n_atoms. simpl.
  apply andb_true_intro; split; apply Nat.ltb_lt; tauto.
Qed.

Lemma spec_contacts_filter (native : md.Trajectory) :
  select_native_contacts_spec native =
  filter (close_in_native native) (heavy_pairs_list native).
Proof.
  unfold select_native_contacts_spec, heavy_pairs_list.
  now rewrite filter_filter.
Qed.

Lemma spec_contacts_in_range (native : md.Trajectory) :
  forallb (md.in_range native) (select_native_contacts_spec native) = true.
Proof.
  rewrite spec_contacts_filter. apply forallb_filter, heavy_pairs_in_range.
Qed.

Lemma contacts_have_pairs (native : md.Trajectory) :
  select_native_contacts_spec native <> [] -> heavy_pairs_list native <> [].
Proof.
  rewrite spec_contacts_filter. intros H E. apply H. now rewrite E.
Qed.

Lemma in_spec_contacts (native : md.Trajectory) (i j : nat) :
  In (i, j) (select_native_contacts_spec native) <-> native_contact native i j.
Proof.
  unfold select_native_contacts_spec, native_contact.
  rewrite filter_In, (in_combinations2_sorted _ _ _ (heavy_sorted _)).
  rewrite !in_heavy, !heavy_iff, andb_true_iff.
  unfold separated, close_in_native, md.n_atoms, NATIVE_CUTOFF.
  rewrite Z.ltb_lt, Rltb_lt. simpl fst. simpl snd.
  intuition lia.
Qed.

(** The atoms of a native contact are heavy. *)
Lemma contact_atom_heavy (native : md.Trajectory) (a : nat) :
  contact_atom native a -> md.heavy (md.atom (md.topology native) a) = true.
Proof.
  intros [[i j] [Hin Ha]]. apply in_spec_contacts in Hin.
  unfold native_contact in Hin. simpl in Ha. rewrite heavy_iff.
  destruct Ha; subst; tauto.
Qed.

Lemma in_range_forall (traj : md.Trajectory) (l : list (nat * nat)) :
  forallb (md.in_range traj) l = true <->
  forall i j, In (i, j) l -> (i < md.n_atoms traj)%nat /\ (j < md.n_atoms traj)%nat.
Proof.
  rewrite forallb_forall. unfold md.in_range. split.
  - intros H i j Hin. specialize (H _ Hin). simpl in H.
    apply andb_true_iff in H. now rewrite !Nat.ltb_lt in H.
  - intros H [i j] Hin. specialize (H _ _ Hin). simpl.
    apply andb_true_iff. now rewrite !Nat.ltb_lt.
Qed.

(** A trajectory with at least as many atoms as the native structure has
    every native contact in range. *)
Lemma contacts_in_range_of_atoms (traj native : md.Trajectory) :
  (md.n_atoms native <= md.n_atoms traj)%nat ->
  forallb (md.in_range traj) (select_native_contacts_spec native) = true.
Proof.
  intros Hn. pose proof (spec_contacts_in_range native) as H.
  rewrite forallb_forall in *. intros p Hp. specialize (H p Hp).
  unfold md.in_range in *.
  apply andb_true_iff in H. destruct H as [H1 H2].
  apply Nat.ltb_lt in H1, H2.
  apply andb_true_intro; split; apply Nat.ltb_lt; lia.
Qed.

(** Two trajectories that have the same atoms of native contacts have the
    same native contacts in range. *)
Lemma in_range_contact_atoms (t1 t2 native : md.Trajectory) :
  (forall a, contact_atom native a ->
             (a < md.n_atoms t1)%nat <-> (a < md.n_atoms t2)%nat) ->
  forallb (md.in_range t1) (select_native_contacts_spec native) =
  forallb (md.in_range t2) (select_native_contacts_spec native).
Proof.
  intros H. apply forallb_agree. intros p Hp. unfold md.in_range.
  assert (forall a, contact_atom native a ->
                    (a <? md.n_atoms t1)%nat = (a <? md.n_atoms t2)%nat) as Hb.
  { intros a Ha. specialize (H a Ha).
    destruct (a <? md.n_atoms t1)%nat eqn:E1, (a <? md.n_atoms t2)%nat eqn:E2;
      try reflexivity.
    - apply Nat.ltb_lt in E1. apply Nat.ltb_ge in E2. apply H in E1. lia.
    - apply Nat.ltb_ge in E1. apply Nat.ltb_lt in E2. apply H in E2. lia. }
  rewrite (Hb (fst p)), (Hb (snd p)); [reflexivity| |]; exists p; auto.
Qed.

(** ** Distances *)

Lemma distance_nonneg (a b : md.point) : 0 <= md.distance a b.
Proof.
  destruct a as [[ax ay] az], b as [[bx by_] bz]. unfold md.distance.
  apply sqrt_pos.
Qed.

Lemma minimum_image_distance_nonneg (box : md.Box) (a b : md.point) :
  0 <= md.minimum_image_distance box a b.
Proof.
  destruct a as [[ax ay] az], b as [[bx by_] bz], box as [[lx ly] lz].
  unfold md.minimum_image_distance. apply sqrt_pos.
Qed.

Lemma pair_distance_nonneg (t : md.Trajectory) (f : nat) (p : nat * nat) :
  0 <= md.pair_distance t f p.
Proof.
  unfold md.pair_distance. destruct (md.unitcell_lengths t).
  - apply minimum_image_distance_nonneg.
  - apply distance_nonneg.
Qed.

(** Without unit cell the distance is Euclidean. *)
Lemma pair_distance_no_cell (t : md.Trajectory) (f : nat) (p : nat * nat) :
  md.unitcell_lengths t = None -> md.pair_distance t f p = euclidean t f p.
Proof. intros H. unfold md.pair_distance. now rewrite H. Qed.

Lemma pair_distance_cell (t : md.Trajectory) (box : nat -> md.Box) (f : nat)
      (p : nat * nat) :
  md.unitcell_lengths t = Some box ->
  md.pair_distance t f p =
  md.minimum_image_distance (box f) (md.xyz t f (fst p)) (md.xyz t f (snd p)).
Proof. intros H. unfold md.pair_distance. now rewrite H. Qed.

(** The distances of a single frame taken out of a trajectory. *)
Lemma pair_distance_frame (t : md.Trajectory) (k f : nat) (p : nat * nat) :
  md.pair_distance
    {| md.topology := md.topology t; md.n_frames := 1; md.xyz := fun _ => md.xyz t k;
       md.unitcell_lengths :=
         option_map (fun box _ => box k) (md.unitcell_lengths t) |} f p =
  md.pair_distance t k p.
Proof. unfold md.pair_distance. simpl. now destruct (md.unitcell_lengths t). Qed.

Lemma first_frame_distance (native : md.Trajectory) (f : nat) (p : nat * nat) :
  frame_distance (first_frame native) f p = native_distance native p.
Proof. apply pair_distance_frame. Qed.

(** The distance of two trajectories on a pair agree when the coordinates
    of its atoms and the unit cells of the frame do. *)
Lemma pair_distance_agree (t1 t2 : md.Trajectory) (f g : nat) (p : nat * nat) :
  md.xyz t1 f (fst p) = md.xyz t2 g (fst p) ->
  md.xyz t1 f (snd p) = md.xyz t2 g (snd p) ->
  md.unitcell t1 f = md.unitcell t2 g ->
  md.pair_distance t1 f p = md.pair_distance t2 g p.
Proof.
  intros H1 H2 Hc. unfold md.pair_distance, md.unitcell in *.
  rewrite H1, H2.
  destruct (md.unitcell_lengths t1), (md.unitcell_lengths t2); simpl in Hc;
    try discriminate; [|reflexivity].
  inversion Hc as [Hb]. now rewrite Hb.
Qed.

(** ** The library calls of a run *)

Lemma getitem_first (native : md.Trajectory) :
  (0 < md.n_frames native)%nat -> md.getitem native 0 = ret (first_frame native).
Proof.
  intros H. unfold md.getitem.
  apply Nat.ltb_lt in H. now rewrite H.
Qed.

Lemma getitem_no_frame (native : md.Trajectory) :
  md.n_frames native = 0%nat -> md.getitem native 0 = raise IndexError.
Proof. intros H. unfold md.getitem. now rewrite H. Qed.

Lemma compute_distances_rows (t : md.Trajectory) (rows : list (nat * nat)) :
  forallb (md.in_range t) rows = true ->
  md.compute_distances t (np.Array2 rows) =
  ret (map (fun f => map (md.pair_distance t f) rows) (seq 0 (md.n_frames t))).
Proof. intros H. simpl. now rewrite H. Qed.

Lemma compute_distances_out_of_range (t : md.Trajectory) (rows : list (nat * nat)) :
  forallb (md.in_range t) rows = false ->
  md.compute_distances t (np.Array2 rows) = raise ValueError.
Proof. intros H. simpl. now rewrite H. Qed.

Lemma compute_distances_first (native : md.Trajectory) (rows : list (nat * nat)) :
  forallb (md.in_range native) rows = true ->
  md.compute_distances (first_frame native) (np.Array2 rows) =
  ret [map (native_distance native) rows].
Proof.
  intros H. rewrite compute_distances_rows by exact H.
  change (md.n_frames (first_frame native)) with 1%nat. cbn [seq map].
  do 2 f_equal. apply map_ext. intros p. apply first_frame_distance.
Qed.

Lemma getitem_row0 (row : list R) (m : np.matrix) :
  np.getitem (row :: m) 0 = ret row.
Proof. reflexivity. Qed.

Lemma array_nonempty (l : list (nat * nat)) : l <> [] -> np.array l = np.Array2 l.
Proof. destruct l; [congruence | reflexivity]. Qed.

Lemma np_exp_run (a : np.matrix) :
  np.exp a = (overflow_log a, inr (map (map np.exp1) a)).
Proof.
  unfold np.exp, overflow_log.
  destruct (existsb (existsb np.exp_overflows) a); reflexivity.
Qed.

Lemma broadcast_exponents (traj native : md.Trajectory) (nc : list (nat * nat)) :
  np.smul BETA_CONST
    (np.sub (map (fun f => map (md.pair_distance traj f) nc) (seq 0 (md.n_frames traj)))
            (np.smul LAMBDA_CONST [map (native_distance native) nc])) =
  map (fun f => map (exponent traj native f) nc) (seq 0 (md.n_frames traj)).
Proof.
  unfold np.smul, np.sub. simpl map at 3.
  rewrite !map_map. apply map_ext. intros f.
  rewrite sub_row_map, map_map. reflexivity.
Qed.

(** ** Runs of [select_native_contacts] *)

Lemma select_returns (native : md.Trajectory) :
  (0 < md.n_frames native)%nat ->
  heavy_pairs_list native <> [] ->
  select_native_contacts native = ret (returned_selection native).
Proof.
  intros Hf Hp. unfold select_native_contacts.
  fold (heavy_pairs_list native).
  rewrite (array_nonempty _ Hp).
  rewrite (getitem_first _ Hf). run_ret.
  rewrite (compute_distances_first _ _ (heavy_pairs_in_range native)). run_ret.
  rewrite getitem_row0. run_ret.
  unfold np.getitem_mask, np.less.
  rewrite map_map.
  change (fun x => np.Rltb (native_distance native x) (np.float32 NATIVE_CUTOFF))
    with (close_in_native native).
  rewrite select_map_mask, <- spec_contacts_filter.
  reflexivity.
Qed.

(** A native structure without any frame: [native[0]] raises. *)
Lemma select_no_frame (native : md.Trajectory) :
  md.n_frames native = 0%nat ->
  select_native_contacts native = raise IndexError.
Proof.
  intros Hf. unfold select_native_contacts.
  now rewrite (getitem_no_frame _ Hf).
Qed.

(** No pair passes the residue filter: [heavy_pairs] is the empty
    one-dimensional array, which [md.compute_distances] refuses. *)
Lemma select_no_pairs (native : md.Trajectory) :
  (0 < md.n_frames native)%nat ->
  heavy_pairs_list native = [] ->
  select_native_contacts native = raise ValueError.
Proof.
  intros Hf Hp. unfold select_native_contacts.
  fold (heavy_pairs_list native). rewrite Hp.
  rewrite (getitem_first _ Hf). run_ret. reflexivity.
Qed.

(** ** Runs of [best_hummer_q] *)

Lemma locals_returns (traj native : md.Trajectory) :
  (0 < md.n_frames native)%nat ->
  heavy_pairs_list native <> [] ->
  forallb (md.in_range traj) (select_native_contacts_spec native) = true ->
  best_hummer_q_locals traj native =
  (Stdout_native_contacts (length (select_native_contacts_spec native))
     :: overflow_log (exponents traj native),
   inr (returned_locals traj native)).
Proof.
  intros Hf Hp Hr. unfold best_hummer_q_locals.
  rewrite (select_returns _ Hf Hp). run_ret.
  apply bind_tell.
  simpl native_contacts.
  rewrite (compute_distances_rows _ _ Hr). run_ret.
  rewrite (getitem_first _ Hf). run_ret.
  rewrite (compute_distances_first _ _ (spec_contacts_in_range native)). run_ret.
  rewrite broadcast_exponents, np_exp_run.
  unfold bind, ret. simpl fst. simpl snd. rewrite app_nil_r.
  unfold returned_locals, scores, exponents.
  repeat f_equal.
  - unfold np.sdiv, np.sadd. rewrite !map_map. apply map_ext. intros f.
    rewrite !map_map. reflexivity.
  - unfold np.mean_axis1, np.sdiv, np.sadd. rewrite !map_map. apply map_ext. intros f.
    rewrite !map_map. reflexivity.
Qed.

Lemma locals_no_frame (traj native : md.Trajectory) :
  md.n_frames native = 0%nat ->
  best_hummer_q_locals traj native = ([], inl IndexError).
Proof.
  intros Hf. unfold best_hummer_q_locals.
  now rewrite (select_no_frame _ Hf).
Qed.

Lemma locals_no_pairs (traj native : md.Trajectory) :
  (0 < md.n_frames native)%nat ->
  heavy_pairs_list native = [] ->
  best_hummer_q_locals traj native = ([], inl ValueError).
Proof.
  intros Hf Hp. unfold best_hummer_q_locals.
  now rewrite (select_no_pairs _ Hf Hp).
Qed.

(** Some native contact names an atom the trajectory does not have: the
    distance computation of line 57 raises, after the print of line 54. *)
Lemma locals_out_of_range (traj native : md.Trajectory) :
  (0 < md.n_frames native)%nat ->
  heavy_pairs_list native <> [] ->
  forallb (md.in_range traj) (select_native_contacts_spec native) = false ->
  best_hummer_q_locals traj native =
  ([Stdout_native_contacts (length (select_native_contacts_spec native))],
   inl ValueError).
Proof.
  intros Hf Hp Hr. unfold best_hummer_q_locals.
  rewrite (select_returns _ Hf Hp). run_ret.
  apply bind_tell.
  simpl native_contacts.
  now rewrite (compute_distances_out_of_range _ _ Hr).
Qed.

Lemma best_hummer_q_returns (traj native : md.Trajectory) :
  (0 < md.n_frames native)%nat ->
  heavy_pairs_list native <> [] ->
  forallb (md.in_range traj) (select_native_contacts_spec native) = true ->
  best_hummer_q traj native =
  (Stdout_native_contacts (length (select_native_contacts_spec native))
     :: overflow_log (exponents traj native),
   inr (scores traj native)).
Proof.
  intros Hf Hp Hr. unfold best_hummer_q.
  rewrite (locals_returns _ _ Hf Hp Hr). unfold bind, ret. simpl.
  now rewrite app_nil_r.
Qed.

Lemma best_hummer_q_no_frame (traj native : md.Trajectory) :
  md.n_frames native = 0%nat ->
  best_hummer_q traj native = ([], inl IndexError).
Proof.
  intros Hf. unfold best_hummer_q. now rewrite (locals_no_frame _ _ Hf).
Qed.

Lemma best_hummer_q_no_pairs (traj native : md.Trajectory) :
  (0 < md.n_frames native)%nat ->
  heavy_pairs_list native = [] ->
  best_hummer_q traj native = ([], inl ValueError).
Proof.
  intros Hf Hp. unfold best_hummer_q. now rewrite (locals_no_pairs _ _ Hf Hp).
Qed.

Lemma best_hummer_q_out_of_range (traj native : md.Trajectory) :
  (0 < md.n_frames native)%nat ->
  heavy_pairs_list native <> [] ->
  forallb (md.in_range traj) (select_native_contacts_spec native) = false ->
  best_hummer_q traj native =
  ([Stdout_native_contacts (length (select_native_contacts_spec native))],
   inl ValueError).
Proof.
  intros Hf Hp Hr. unfold best_hummer_q.
  now rewrite (locals_out_of_range _ _ Hf Hp Hr).
Qed.

Lemma best_hummer_q_outcome (traj native : md.Trajectory) :
  best_hummer_q traj native = outcome traj native.
Proof.
  unfold outcome.
  destruct (md.n_frames native =? 0)%nat eqn:Hf.
  - apply Nat.eqb_eq in Hf. now apply best_hummer_q_no_frame.
  - apply Nat.eqb_neq in Hf.
    assert (0 < md.n_frames native)%nat as Hf' by lia.
    destruct (heavy_pairs_list native) as [|p0 l] eqn:Hp.
    + now apply best_hummer_q_no_pairs.
    + assert (heavy_pairs_list native <> []) as Hp' by (rewrite Hp; discriminate).
      destruct (forallb (md.in_range traj) (select_native_contacts_spec native)) eqn:Hr.
      * now apply best_hummer_q_returns.
      * now apply best_hummer_q_out_of_range.
Qed.

Lemma best_hummer_q_returns_inv (traj native : md.Trajectory) log qs :
  best_hummer_q traj native = (log, inr qs) ->
  (0 < md.n_frames native)%nat /\
  heavy_pairs_list native <> [] /\
  forallb (md.in_range traj) (select_native_contacts_spec native) = true /\
  log = Stdout_native_contacts (length (select_native_contacts_spec native))
          :: overflow_log (exponents traj native) /\
  qs = scores traj native.
Proof.
  rewrite best_hummer_q_outcome. unfold outcome.
  destruct (md.n_frames native =? 0)%nat eqn:Hf; [discriminate|].
  apply Nat.eqb_neq in Hf.
  destruct (heavy_pairs_list native) as [|p0 l] eqn:Hp; [discriminate|].
  destruct (forallb (md.in_range traj) (select_native_contacts_spec native)) eqn:Hr;
    [|discriminate].
  intros E. inversion E. repeat split; try reflexivity; [lia | discriminate].
Qed.

Lemma best_hummer_q_raises_inv (traj native : md.Trajectory) log e :
  best_hummer_q traj native = (log, inl e) ->
  (md.n_frames native = 0%nat /\ e = IndexError /\ log = []) \/
  ((0 < md.n_frames native)%nat /\ heavy_pairs_list native = [] /\
   e = ValueError /\ log = []) \/
  ((0 < md.n_frames native)%nat /\ heavy_pairs_list native <> [] /\
   forallb (md.in_range traj) (select_native_contacts_spec native) = false /\
   e = ValueError /\
   log = [Stdout_native_contacts (length (select_native_contacts_spec native))]).
Proof.
  rewrite best_hummer_q_outcome. unfold outcome.
  destruct (md.n_frames native =? 0)%nat eqn:Hf.
  { apply Nat.eqb_eq in Hf. intros E. inversion E. now left. }
  apply Nat.eqb_neq in Hf.
  destruct (heavy_pairs_list native) as [|p0 l] eqn:Hp.
  { intros E. inversion E. right. left. repeat split; auto. lia. }
  destruct (forallb (md.in_range traj) (select_native_contacts_spec native)) eqn:Hr;
    [discriminate|].
  intros E. inversion E. right. right. repeat split; auto; [lia | discriminate].
Qed.

(** ** The sigmoid, the score and the mean *)

Lemma sigmoid_pos (rf r0p : R) : 0 < sigmoid rf r0p.
Proof.
  unfold sigmoid. pose proof (exp_pos (50 * (rf - 1.8 * r0p))).
  apply Rdiv_lt_0_compat; lra.
Qed.

Lemma sigmoid_lt_1 (rf r0p : R) : sigmoid rf r0p < 1.
Proof.
  unfold sigmoid. pose proof (exp_pos (50 * (rf - 1.8 * r0p))) as H.
  apply Rmult_lt_reg_r with (1 + exp (50 * (rf - 1.8 * r0p))); [lra|].
  unfold Rdiv. rewrite Rmult_assoc, Rinv_l by lra. lra.
Qed.

Lemma sigmoid_decreasing (r0p a b : R) : a < b -> sigmoid b r0p < sigmoid a r0p.
Proof.
  intros Hab. unfold sigmoid.
  pose proof (exp_pos (50 * (a - 1.8 * r0p))) as Ha.
  assert (exp (50 * (a - 1.8 * r0p)) < exp (50 * (b - 1.8 * r0p))) as Hlt
    by (apply exp_increasing; lra).
  unfold Rdiv. rewrite !Rmult_1_l.
  apply Rinv_lt_contravar; [|lra].
  apply Rmult_lt_0_compat; lra.
Qed.

Lemma sigmoid_native (r0p : R) :
  sigmoid r0p r0p = 1 / (1 + exp (50 * (1 - 1.8) * r0p)).
Proof. unfold sigmoid. do 3 f_equal. lra. Qed.

Lemma sigmoid_native_ge_half (r0p : R) : 0 <= r0p -> 1 / 2 <= sigmoid r0p r0p.
Proof.
  intros H. unfold sigmoid.
  pose proof (exp_pos (50 * (r0p - 1.8 * r0p))) as Hp.
  assert (exp (50 * (r0p - 1.8 * r0p)) <= 1) as Hle.
  { rewrite <- exp_0. destruct H as [H|H].
    - left. apply exp_increasing. lra.
    - right. f_equal. rewrite <- H. lra. }
  unfold Rdiv. rewrite !Rmult_1_l.
  apply Rinv_le_contravar; lra.
Qed.

(** The score of line 61 is the sigmoid while [exp] stays within the
    float32 range, and exactly 0 once it has left it. *)
Lemma score_in_range (rf r0p : R) :
  exp (50 * (rf - 1.8 * r0p)) <= np.FLT_MAX -> score rf r0p = sigmoid rf r0p.
Proof.
  intros H. unfold score, np.exp1, np.exp_overflows, BETA_CONST, LAMBDA_CONST.
  rewrite Rltb_false by lra. reflexivity.
Qed.

Lemma score_overflow (rf r0p : R) :
  np.FLT_MAX < exp (50 * (rf - 1.8 * r0p)) -> score rf r0p = 0.
Proof.
  intros H. unfold score, np.exp1, np.exp_overflows, BETA_CONST, LAMBDA_CONST.
  rewrite Rltb_true by exact H. reflexivity.
Qed.

Lemma score_cases (rf r0p : R) :
  (exp (50 * (rf - 1.8 * r0p)) <= np.FLT_MAX /\ score rf r0p = sigmoid rf r0p) \/
  (np.FLT_MAX < exp (50 * (rf - 1.8 * r0p)) /\ score rf r0p = 0).
Proof.
  destruct (Rle_lt_dec (exp (50 * (rf - 1.8 * r0p))) np.FLT_MAX) as [H|H].
  - left. split; [exact H | now apply score_in_range].
  - right. split; [exact H | now apply score_overflow].
Qed.

Lemma score_bounds (rf r0p : R) : 0 <= score rf r0p <= 1.
Proof.
  pose proof (sigmoid_pos rf r0p). pose proof (sigmoid_lt_1 rf r0p).
  destruct (score_cases rf r0p) as [[_ E]|[_ E]]; rewrite E; lra.
Qed.

(** The score never increases with the frame distance. *)
Lemma score_nonincreasing (r0p a b : R) : a <= b -> score b r0p <= score a r0p.
Proof.
  intros Hab.
  assert (exp (50 * (a - 1.8 * r0p)) <= exp (50 * (b - 1.8 * r0p))) as He.
  { destruct Hab as [Hab|Hab].
    - left. apply exp_increasing. lra.
    - right. now rewrite Hab. }
  destruct (score_cases b r0p) as [[Hb Eb]|[Hb Eb]]; rewrite Eb.
  - rewrite score_in_range by lra.
    destruct Hab as [Hab|Hab].
    + left. now apply sigmoid_decreasing.
    + right. now rewrite Hab.
  - apply score_bounds.
Qed.

Lemma sum_bounds (lo hi : R) (l : list R) :
  Forall (fun x => lo <= x <= hi) l ->
  lo * INR (length l) <= np.sum l <= hi * INR (length l).
Proof.
  induction 1 as [|x l Hx _ IH].
  - simpl. lra.
  - change (np.sum (x :: l)) with (x + np.sum l).
    change (length (x :: l)) with (S (length l)).
    rewrite S_INR. lra.
Qed.

Lemma INR_length_pos (A : Type) (l : list A) : l <> [] -> 0 < INR (length l).
Proof. intros H. apply lt_0_INR. destruct l; [congruence | simpl; lia]. Qed.

(** The mean of values within bounds stays within them. *)
Lemma mean_bounds (lo hi : R) (l : list R) :
  l <> [] -> Forall (fun x => lo <= x <= hi) l -> lo <= mean l <= hi.
Proof.
  intros Hne H. unfold mean.
  pose proof (INR_length_pos _ l Hne) as Hn.
  pose proof (sum_bounds _ _ _ H) as [H1 H2].
  split.
  - apply Rmult_le_reg_r with (INR (length l)); [exact Hn|].
    unfold Rdiv. rewrite Rmult_assoc, Rinv_l by lra. lra.
  - apply Rmult_le_reg_r with (INR (length l)); [exact Hn|].
    unfold Rdiv. rewrite Rmult_assoc, Rinv_l by lra. lra.
Qed.

Lemma sum_map_le (A : Type) (g h : A -> R) (l : list A) :
  (forall p, In p l -> g p <= h p) -> np.sum (map g l) <= np.sum (map h l).
Proof.
  induction l as [|x l IH]; intros H; simpl; [lra|].
  assert (g x <= h x) by (apply H; now left).
  assert (np.sum (map g l) <= np.sum (map h l)) by (apply IH; intros; apply H; now right).
  unfold np.sum in *. lra.
Qed.

Lemma mean_map_le (A : Type) (g h : A -> R) (l : list A) :
  l <> [] -> (forall p, In p l -> g p <= h p) -> mean (map g l) <= mean (map h l).
Proof.
  intros Hne H. unfold mean. rewrite !length_map.
  pose proof (INR_length_pos _ l Hne) as Hn.
  pose proof (sum_map_le _ g h l H) as Hs.
  unfold Rdiv. apply Rmult_le_compat_r; [|exact Hs].
  left. now apply Rinv_0_lt_compat.
Qed.

Lemma mean_row_nonempty (l : list R) : l <> [] -> np.mean_row l = np.finite (mean l).
Proof. destruct l; [congruence | reflexivity]. Qed.

Lemma mean_single (x : R) : mean [x] = x.
Proof. unfold mean, np.sum. simpl. field. Qed.

Lemma scores_length (traj native : md.Trajectory) :
  length (scores traj native) = md.n_frames traj.
Proof. unfold scores. now rewrite length_map, length_seq. Qed.

Lemma scores_nth (traj native : md.Trajectory) (f : nat) :
  (f < md.n_frames traj)%nat ->
  nth_error (scores traj native) f =
  Some (np.mean_row (map (pair_score traj native f) (select_native_contacts_spec native))).
Proof.
  intros H. unfold scores. rewrite nth_error_map_seq.
  apply Nat.ltb_lt in H. now rewrite H.
Qed.

Lemma score_of_frame (traj native : md.Trajectory) (f : nat) :
  select_native_contacts_spec native <> [] ->
  (f < md.n_frames traj)%nat ->
  nth_error (scores traj native) f =
  Some (np.finite (mean (map (pair_score traj native f)
                             (select_native_contacts_spec native)))).
Proof.
  intros Hc Hf. rewrite (scores_nth _ _ _ Hf), mean_row_nonempty; [reflexivity|].
  intros E. apply map_eq_nil in E. contradiction.
Qed.

(** With no native contact every frame scores [nan]. *)
Lemma scores_empty (traj native : md.Trajectory) :
  select_native_contacts_spec native = [] ->
  scores traj native = repeat np.nan (md.n_frames traj).
Proof.
  intros H. unfold scores. rewrite H. simpl.
  rewrite map_const. now rewrite length_seq.
Qed.

(** ** Overflow of [np.exp] *)

Lemma exp_1_gt_2 : 2 < exp 1.
Proof. pose proof (exp_ineq1 1). lra. Qed.

Lemma exp_INR_ge_pow2 (n : nat) : 2 ^ n <= exp (INR n).
Proof.
  induction n as [|n IH].
  - simpl. rewrite exp_0. lra.
  - rewrite S_INR, exp_plus. simpl pow.
    pose proof exp_1_gt_2. pose proof (exp_pos (INR n)).
    assert (0 < 2 ^ n) by (apply pow_lt; lra).
    rewrite Rmult_comm. apply Rmult_le_compat; lra.
Qed.

Lemma FLT_MAX_lt_pow2_128 : np.FLT_MAX < 2 ^ 128.
Proof.
  unfold np.FLT_MAX. change (2 ^ 128) with (2 * 2 ^ 127).
  assert (0 < 2 ^ 127) by (apply pow_lt; lra).
  assert (0 < / 2 ^ 23) by (apply Rinv_0_lt_compat, pow_lt; lra).
  apply Rmult_lt_compat_r; lra.
Qed.

Lemma pow2_127_le_FLT_MAX : 2 ^ 127 <= np.FLT_MAX.
Proof.
  unfold np.FLT_MAX.
  assert (0 < / 2 ^ 23 <= 1) as Hi.
  { split; [apply Rinv_0_lt_compat, pow_lt; lra|].
    rewrite <- Rinv_1. apply Rinv_le_contravar; [lra|].
    apply pow_R1_Rle. lra. }
  assert (0 < 2 ^ 127) by (apply pow_lt; lra).
  nra.
Qed.

Lemma FLT_MAX_gt_1 : 1 < np.FLT_MAX.
Proof.
  pose proof pow2_127_le_FLT_MAX.
  assert (2 <= 2 ^ 127) as H2.
  { pose proof (Rle_pow 2 1 127) as Hp. rewrite pow_1 in Hp.
    apply Hp; [lra | lia]. }
  lra.
Qed.

(** Any exponent argument from 128 on overflows. *)
Lemma exp_overflows_from_128 (x : R) : 128 <= x -> np.FLT_MAX < exp x.
Proof.
  intros H. pose proof FLT_MAX_lt_pow2_128. pose proof (exp_INR_ge_pow2 128) as H2.
  assert (exp (INR 128) <= exp x) as H3.
  { replace (INR 128) with 128 by (rewrite INR_IZR_INZ; reflexivity).
    destruct H as [H|H]; [left; now apply exp_increasing | right; now subst]. }
  lra.
Qed.

Lemma exp_INR_le_pow3 (n : nat) : exp (INR n) <= 3 ^ n.
Proof.
  induction n as [|n IH].
  - simpl. rewrite exp_0. lra.
  - rewrite S_INR, exp_plus. simpl pow.
    pose proof exp_le_3. pose proof (exp_pos (INR n)). pose proof (exp_pos 1).
    rewrite Rmult_comm. apply Rmult_le_compat; lra.
Qed.

Lemma exp_80_lt_FLT_MAX : exp 80 < np.FLT_MAX.
Proof.
  pose proof (exp_INR_le_pow3 80) as H.
  replace (INR 80) with 80 in H by (rewrite INR_IZR_INZ; reflexivity).
  assert (3 ^ 80 < 2 ^ 127) as Hp.
  { rewrite !pow_IZR. apply IZR_lt. reflexivity. }
  pose proof pow2_127_le_FLT_MAX.
  lra.
Qed.

(** No exponent argument up to 80 overflows. *)
Lemma exp_in_range_to_80 (x : R) : x <= 80 -> exp x <= np.FLT_MAX.
Proof.
  intros H. pose proof exp_80_lt_FLT_MAX.
  assert (exp x <= exp 80)
    by (destruct H as [H|H]; [left; now apply exp_increasing | rewrite H; lra]).
  lra.
Qed.

Lemma overflow_log_overflow (traj native : md.Trajectory) (f : nat) (p : nat * nat) :
  (f < md.n_frames traj)%nat ->
  In p (select_native_contacts_spec native) ->
  np.FLT_MAX < exp (exponent traj native f p) ->
  overflow_log (exponents traj native) = [RuntimeWarning_overflow_exp].
Proof.
  intros Hf Hp Ho. unfold overflow_log.
  replace (existsb (existsb np.exp_overflows) (exponents traj native)) with true;
    [reflexivity|].
  symmetry. apply existsb_exists.
  exists (map (exponent traj native f) (select_native_contacts_spec native)). split.
  - unfold exponents. apply in_map_iff. exists f. split; [reflexivity|].
    apply in_seq. lia.
  - apply existsb_exists. exists (exponent traj native f p). split.
    + now apply in_map.
    + now apply Rltb_true.
Qed.

Lemma overflow_log_empty (traj native : md.Trajectory) :
  select_native_contacts_spec native = [] ->
  overflow_log (exponents traj native) = [].
Proof.
  intros H. unfold overflow_log, exponents. rewrite H. simpl.
  induction (seq 0 (md.n_frames traj)) as [|f l IH]; simpl; [reflexivity|].
  exact IH.
Qed.

(** No exponent above 80, no warning. *)
Lemma overflow_log_bounded (traj native : md.Trajectory) :
  (forall f p, (f < md.n_frames traj)%nat ->
               In p (select_native_contacts_spec native) ->
               exponent traj native f p <= 80) ->
  overflow_log (exponents traj native) = [].
Proof.
  intros H. unfold overflow_log.
  destruct (existsb (existsb np.exp_overflows) (exponents traj native)) eqn:E;
    [|reflexivity].
  exfalso. apply existsb_exists in E. destruct E as [row [Hrow E]].
  unfold exponents in Hrow. apply in_map_iff in Hrow.
  destruct Hrow as [f [Ef Hf]]. subst row. apply in_seq in Hf.
  apply existsb_exists in E. destruct E as [x [Hx E]].
  apply in_map_iff in Hx. destruct Hx as [p [Ep Hp]]. subst x.
  apply Rltb_lt in E.
  assert (exponent traj native f p <= 80) as Hb by (apply H; [lia | exact Hp]).
  pose proof (exp_in_range_to_80 _ Hb). lra.
Qed.

(** ** Calls that agree *)

Lemma separated_topology (n1 n2 : md.Trajectory) (p : nat * nat) :
  md.topology n1 = md.topology n2 -> separated n1 p = separated n2 p.
Proof. intros H. unfold separated, residue_index. now rewrite H. Qed.

Lemma heavy_pairs_topology (n1 n2 : md.Trajectory) :
  md.topology n1 = md.topology n2 -> heavy_pairs_list n1 = heavy_pairs_list n2.
Proof.
  intros H. unfold heavy_pairs_list. rewrite H.
  apply filter_ext. intros p. now apply separated_topology.
Qed.

(** The result is determined by the topology of the native structure, the
    native distances of its separated heavy pairs, the frames of the
    trajectory, whether it has the atoms of the native contacts, and its
    distances on the native contacts. *)
Lemma outcome_congr (t1 t2 n1 n2 : md.Trajectory) :
  md.topology n1 = md.topology n2 ->
  (md.n_frames n1 =? 0)%nat = (md.n_frames n2 =? 0)%nat ->
  (forall p, In p (heavy_pairs_list n1) -> native_distance n1 p = native_distance n2 p) ->
  md.n_frames t1 = md.n_frames t2 ->
  forallb (md.in_range t1) (select_native_contacts_spec n1) =
  forallb (md.in_range t2) (select_native_contacts_spec n1) ->
  (forall f p, (f < md.n_frames t1)%nat -> In p (select_native_contacts_spec n1) ->
               frame_distance t1 f p = frame_distance t2 f p) ->
  outcome t1 n1 = outcome t2 n2.
Proof.
  intros Htop Hfr Hd Hn Hr Hx.
  pose proof (heavy_pairs_topology _ _ Htop) as Hhp.
  assert (select_native_contacts_spec n1 = select_native_contacts_spec n2) as Hnc.
  { rewrite !spec_contacts_filter, <- Hhp. apply filter_ext_in. intros p Hp.
    unfold close_in_native. now rewrite (Hd p Hp). }
  assert (forall p, In p (select_native_contacts_spec n1) ->
                    native_distance n1 p = native_distance n2 p) as Hd'.
  { intros p Hp. apply Hd. rewrite spec_contacts_filter in Hp.
    now apply filter_In in Hp. }
  assert (exponents t1 n1 = exponents t2 n2) as He.
  { unfold exponents. rewrite <- Hnc, <- Hn. apply map_ext_in. intros f Hin.
    apply in_seq in Hin. apply map_ext_in. intros p Hp.
    unfold exponent. rewrite (Hx f p), (Hd' p); auto. lia. }
  assert (scores t1 n1 = scores t2 n2) as Hs.
  { unfold scores. rewrite <- Hnc, <- Hn. apply map_ext_in. intros f Hin.
    apply in_seq in Hin. f_equal. apply map_ext_in. intros p Hp.
    unfold pair_score. rewrite (Hx f p), (Hd' p); auto. lia. }
  rewrite Hnc in Hr at 2.
  unfold outcome. now rewrite Hfr, Hhp, Hr, He, Hs, Hnc.
Qed.

(** Two trajectories with the same frames and the same atoms of native
    contacts, at the same distances, get the same result. *)
Lemma best_hummer_q_agree (t1 t2 native : md.Trajectory) :
  md.n_frames t1 = md.n_frames t2 ->
  forallb (md.in_range t1) (select_native_contacts_spec native) =
  forallb (md.in_range t2) (select_native_contacts_spec native) ->
  (forall f p, (f < md.n_frames t1)%nat -> In p (select_native_contacts_spec native) ->
               frame_distance t1 f p = frame_distance t2 f p) ->
  best_hummer_q t1 native = best_hummer_q t2 native.
Proof.
  intros Hn Hr Hx. rewrite !best_hummer_q_outcome.
  now apply outcome_congr.
Qed.

(** ** Entries of the arrays of a returning run *)

Lemma item_rows (g : nat -> nat * nat -> R) (l : list (nat * nat)) (n f k : nat) :
  np.item (map (fun f => map (g f) l) (seq 0 n)) f k =
  if (f <? n)%nat then option_map (g f) (nth_error l k) else None.
Proof.
  unfold np.item. rewrite nth_error_map_seq.
  destruct (f <? n)%nat; [apply nth_error_map | reflexivity].
Qed.

Lemma item_single_row (g : nat * nat -> R) (l : list (nat * nat)) (k : nat) :
  np.item [map g l] 0 k = option_map g (nth_error l k).
Proof. unfold np.item. simpl. apply nth_error_map. Qed.

Lemma item_s (traj native : md.Trajectory) (f k : nat) :
  np.item (s (returned_locals traj native)) f k =
  if (f <? md.n_frames traj)%nat
  then option_map (pair_score traj native f)
                  (nth_error (select_native_contacts_spec native) k)
  else None.
Proof. exact (item_rows (pair_score traj native) _ _ f k). Qed.

Lemma item_r (traj native : md.Trajectory) (f k : nat) :
  np.item (r (returned_locals traj native)) f k =
  if (f <? md.n_frames traj)%nat
  then option_map (frame_distance traj f)
                  (nth_error (select_native_contacts_spec native) k)
  else None.
Proof. exact (item_rows (frame_distance traj) _ _ f k). Qed.

Lemma item_r0 (traj native : md.Trajectory) (k : nat) :
  np.item (r0 (returned_locals traj native)) 0 k =
  option_map (native_distance native)
             (nth_error (select_native_contacts_spec native) k).
Proof. exact (item_single_row (native_distance native) _ k). Qed.

(** The entries of a retained pair, in a frame of the trajectory. *)
Lemma items_of_pair (traj native : md.Trajectory) (f k : nat) (p : nat * nat) :
  (f < md.n_frames traj)%nat ->
  nth_error (select_native_contacts_spec native) k = Some p ->
  np.item (r0 (returned_locals traj native)) 0 k = Some (native_distance native p) /\
  np.item (r (returned_locals traj native)) f k = Some (frame_distance traj f p) /\
  np.item (s (returned_locals traj native)) f k = Some (pair_score traj native f p).
Proof.
  intros Hf Hk. rewrite item_r0, item_r, item_s.
  apply Nat.ltb_lt in Hf. rewrite Hf, Hk. auto.
Qed.

(** ** The small structures, evaluated *)

Lemma distance_on_axis (a b : R) :
  a <= b -> md.distance (on_axis a) (on_axis b) = b - a.
Proof.
  intros H. unfold md.distance, on_axis.
  replace ((a - b) ^ 2 + (0 - 0) ^ 2 + (0 - 0) ^ 2) with ((b - a) * (b - a)) by ring.
  apply sqrt_square. lra.
Qed.

Lemma wrap_near (len d : R) (n : Z) :
  Rabs (d / len - IZR n) < 1 / 2 -> md.wrap len d = d - IZR n * len.
Proof. intros H. unfold md.wrap. now rewrite (round_half_even_near _ n H). Qed.

Lemma wrap_0 (len : R) : md.wrap len 0 = 0.
Proof.
  rewrite (wrap_near len 0 0); [lra|].
  unfold Rdiv. rewrite Rmult_0_l, Rminus_0_r, Rabs_R0. lra.
Qed.

(** In a cubic box, the distance of two atoms on the axis to the nearest
    image: the displacement less [n] box lengths. *)
Lemma minimum_image_on_axis (len a b : R) (n : Z) :
  Rabs ((b - a) / len - IZR n) < 1 / 2 ->
  md.minimum_image_distance (len, len, len) (on_axis a) (on_axis b) =
  Rabs (b - a - IZR n * len).
Proof.
  intros H. unfold md.minimum_image_distance, on_axis.
  rewrite (wrap_near _ _ _ H).
  replace (0 - 0) with 0 by lra. rewrite wrap_0.
  replace ((b - a - IZR n * len) ^ 2 + 0 ^ 2 + 0 ^ 2)
    with (Rsqr (b - a - IZR n * len)) by (unfold Rsqr; ring).
  apply sqrt_Rsqr_abs.
Qed.

Ltac axis_distance :=
  unfold native_distance, frame_distance, euclidean, md.pair_distance;
  cbn [md.xyz md.unitcell_lengths small_native unfolded unfolded_then_torn far_native
       compact_native compact_then_unfolded unboxed ligand_native edge_native coincident
       small_frame unfolded_frame torn_frame far_frame compact_frame boxed_frame
       ligand_frame edge_frame fst snd];
  rewrite distance_on_axis; lra.

Lemma small_heavy_pairs : heavy_pairs_list small_native = [(0, 2); (0, 3); (2, 3)]%nat.
Proof. reflexivity. Qed.

Lemma small_distance_0_2 : native_distance small_native (0, 2)%nat = 0.3.
Proof. axis_distance. Qed.

Lemma small_distance_0_3 : native_distance small_native (0, 3)%nat = 1.
Proof. axis_distance. Qed.

Lemma small_distance_2_3 : native_distance small_native (2, 3)%nat = 0.7.
Proof. axis_distance. Qed.

Lemma small_contacts : select_native_contacts_spec small_native = [(0, 2)%nat].
Proof.
  rewrite spec_contacts_filter, small_heavy_pairs.
  unfold filter, close_in_native.
  rewrite small_distance_0_2, small_distance_0_3, small_distance_2_3.
  rewrite (below_cutoff 0.3) by lra.
  rewrite (above_cutoff 1) by lra.
  rewrite (above_cutoff 0.7) by lra.
  reflexivity.
Qed.

Lemma small_frames : (0 < md.n_frames small_native)%nat.
Proof. simpl. lia. Qed.

Lemma small_has_pairs : heavy_pairs_list small_native <> [].
Proof. rewrite small_heavy_pairs. discriminate. Qed.

Lemma small_has_contacts : select_native_contacts_spec small_native <> [].
Proof. rewrite small_contacts. discriminate. Qed.

Lemma unfolded_distance_0_2 : frame_distance unfolded 0 (0, 2)%nat = 5.4.
Proof. axis_distance. Qed.

Lemma unfolded_exponent : exponent unfolded small_native 0 (0, 2)%nat = 243.
Proof.
  unfold exponent. rewrite unfolded_distance_0_2, small_distance_0_2.
  unfold BETA_CONST, LAMBDA_CONST. lra.
Qed.

Lemma far_heavy_pairs : heavy_pairs_list far_native = [(0, 1)%nat].
Proof. reflexivity. Qed.

Lemma far_distance_0_1 : native_distance far_native (0, 1)%nat = 1.
Proof. axis_distance. Qed.

Lemma far_contacts : select_native_contacts_spec far_native = [].
Proof.
  rewrite spec_contacts_filter, far_heavy_pairs.
  unfold filter, close_in_native. rewrite far_distance_0_1.
  rewrite (above_cutoff 1) by lra.
  reflexivity.
Qed.

Lemma far_has_pairs : heavy_pairs_list far_native <> [].
Proof. rewrite far_heavy_pairs. discriminate. Qed.

Lemma two_residues_no_pairs : heavy_pairs_list two_residues = [].
Proof. reflexivity. Qed.

Lemma short_out_of_range :
  forallb (md.in_range short) (select_native_contacts_spec small_native) = false.
Proof. rewrite small_contacts. reflexivity. Qed.

(** The compact structure: all three heavy pairs are native contacts. *)
Lemma compact_distance_0_2 : native_distance compact_native (0, 2)%nat = 0.3.
Proof. axis_distance. Qed.

Lemma compact_distance_0_3 : native_distance compact_native (0, 3)%nat = 0.4.
Proof. axis_distance. Qed.

Lemma compact_distance_2_3 : native_distance compact_native (2, 3)%nat = 0.1.
Proof. axis_distance. Qed.

Lemma compact_contacts :
  select_native_contacts_spec compact_native = [(0, 2); (0, 3); (2, 3)]%nat.
Proof.
  rewrite spec_contacts_filter.
  change (heavy_pairs_list compact_native) with [(0, 2); (0, 3); (2, 3)]%nat.
  unfold filter, close_in_native.
  rewrite compact_distance_0_2, compact_distance_0_3, compact_distance_2_3.
  rewrite (below_cutoff 0.3) by lra.
  rewrite (below_cutoff 0.4) by lra.
  rewrite (below_cutoff 0.1) by lra.
  reflexivity.
Qed.

Lemma compact_has_contacts : select_native_contacts_spec compact_native <> [].
Proof. rewrite compact_contacts. discriminate. Qed.

(** The boxed structure: the pair (0, 2), 1.7 nm apart, is 0.3 nm from its
    nearest image. *)
Lemma boxed_euclidean_0_2 : euclidean boxed 0 (0, 2)%nat = 1.7.
Proof.
  unfold euclidean. cbn [md.xyz boxed boxed_frame fst snd].
  rewrite distance_on_axis; lra.
Qed.

Lemma unboxed_distance_0_2 : frame_distance unboxed 0 (0, 2)%nat = 1.7.
Proof. axis_distance. Qed.

Lemma boxed_distance_0_2 : md.pair_distance boxed 0 (0, 2)%nat = 0.3.
Proof.
  unfold md.pair_distance. cbn [md.xyz md.unitcell_lengths boxed boxed_frame fst snd].
  rewrite (minimum_image_on_axis 2 0 1.7 1).
  - unfold Rabs. destruct (Rcase_abs _); lra.
  - apply Rabs_def1; lra.
Qed.

Lemma boxed_distance_0_3 : md.pair_distance boxed 0 (0, 3)%nat = 0.9.
Proof.
  unfold md.pair_distance. cbn [md.xyz md.unitcell_lengths boxed boxed_frame fst snd].
  rewrite (minimum_image_on_axis 2 0 0.9 0).
  - unfold Rabs. destruct (Rcase_abs _); lra.
  - apply Rabs_def1; lra.
Qed.

Lemma boxed_distance_2_3 : md.pair_distance boxed 0 (2, 3)%nat = 0.8.
Proof.
  unfold md.pair_distance. cbn [md.xyz md.unitcell_lengths boxed boxed_frame fst snd].
  rewrite (minimum_image_on_axis 2 1.7 0.9 0).
  - unfold Rabs. destruct (Rcase_abs _); lra.
  - apply Rabs_def1; lra.
Qed.

Lemma boxed_contacts : select_native_contacts_spec boxed = [(0, 2)%nat].
Proof.
  rewrite spec_contacts_filter.
  change (heavy_pairs_list boxed) with [(0, 2); (0, 3); (2, 3)]%nat.
  unfold filter, close_in_native, native_distance.
  rewrite boxed_distance_0_2, boxed_distance_0_3, boxed_distance_2_3.
  rewrite (below_cutoff 0.3) by lra.
  rewrite (above_cutoff 0.9) by lra.
  rewrite (above_cutoff 0.8) by lra.
  reflexivity.
Qed.

(** The structure with a ligand: the ligand atom is in no heavy pair. *)
Lemma ligand_heavy_pairs : heavy_pairs_list ligand_native = [(0, 2)%nat].
Proof. reflexivity. Qed.

Lemma ligand_distance_0_1 : euclidean ligand_native 0 (0, 1)%nat = 0.3.
Proof. axis_distance. Qed.

Lemma ligand_distance_0_2 : native_distance ligand_native (0, 2)%nat = 0.4.
Proof. axis_distance. Qed.

Lemma ligand_contacts : select_native_contacts_spec ligand_native = [(0, 2)%nat].
Proof.
  rewrite spec_contacts_filter, ligand_heavy_pairs.
  unfold filter, close_in_native. rewrite ligand_distance_0_2.
  rewrite (below_cutoff 0.4) by lra.
  reflexivity.
Qed.

(** The structure at the edge of the cutoff. *)
Lemma edge_heavy_pairs : heavy_pairs_list edge_native = [(0, 1)%nat].
Proof. reflexivity. Qed.

Lemma edge_distance_0_1 : native_distance edge_native (0, 1)%nat = 15099494 / 33554432.
Proof. axis_distance. Qed.

Lemma edge_euclidean_0_1 : euclidean edge_native 0 (0, 1)%nat = 15099494 / 33554432.
Proof. axis_distance. Qed.

Lemma edge_contacts : select_native_contacts_spec edge_native = [].
Proof.
  rewrite spec_contacts_filter, edge_heavy_pairs.
  unfold filter, close_in_native. rewrite edge_distance_0_1.
  rewrite above_cutoff by lra.
  reflexivity.
Qed.

(** The structure with two heavy atoms at one place. *)
Lemma coincident_heavy_pairs : heavy_pairs_list coincident = [(0, 1)%nat].
Proof. reflexivity. Qed.

Lemma coincident_distance_0_1 : native_distance coincident (0, 1)%nat = 0.
Proof. axis_distance. Qed.

Lemma coincident_contacts : select_native_contacts_spec coincident = [(0, 1)%nat].
Proof.
  rewrite spec_contacts_filter, coincident_heavy_pairs.
  unfold filter, close_in_native. rewrite coincident_distance_0_1.
  rewrite (below_cutoff 0) by lra.
  reflexivity.
Qed.

(** ** Runs on the small structures *)

(** The score of a pair from its two distances. *)
Lemma pair_score_in_range (traj native : md.Trajectory) (f : nat) (p : nat * nat)
      (rf r0p x : R) :
  frame_distance traj f p = rf ->
  native_distance native p = r0p ->
  50 * (rf - 1.8 * r0p) = x ->
  x <= 80 ->
  pair_score traj native f p = 1 / (1 + exp x).
Proof.
  intros Hr Hr0 Hx Hb. unfold pair_score. rewrite Hr, Hr0.
  rewrite score_in_range.
  - unfold sigmoid. now rewrite Hx.
  - rewrite Hx. now apply exp_in_range_to_80.
Qed.

Lemma pair_score_overflow (traj native : md.Trajectory) (f : nat) (p : nat * nat)
      (rf r0p : R) :
  frame_distance traj f p = rf ->
  native_distance native p = r0p ->
  128 <= 50 * (rf - 1.8 * r0p) ->
  pair_score traj native f p = 0.
Proof.
  intros Hr Hr0 Hb. unfold pair_score. rewrite Hr, Hr0.
  apply score_overflow. now apply exp_overflows_from_128.
Qed.

Lemma exponent_eval (traj native : md.Trajectory) (f : nat) (p : nat * nat)
      (rf r0p x : R) :
  frame_distance traj f p = rf ->
  native_distance native p = r0p ->
  50 * (rf - 1.8 * r0p) = x ->
  exponent traj native f p = x.
Proof.
  intros Hr Hr0 Hx. unfold exponent, BETA_CONST, LAMBDA_CONST. now rewrite Hr, Hr0.
Qed.

(** A call that returns, with a single native contact and without
    overflow. *)
Lemma single_contact_returns (traj native : md.Trajectory) (p : nat * nat) :
  (0 < md.n_frames native)%nat ->
  select_native_contacts_spec native = [p] ->
  md.in_range traj p = true ->
  best_hummer_q traj native =
  (Stdout_native_contacts 1 :: overflow_log (exponents traj native),
   inr (map (fun f => np.finite (pair_score traj native f p)) (seq 0 (md.n_frames traj)))).
Proof.
  intros Hf Hc Hr. rewrite best_hummer_q_returns.
  - rewrite Hc. do 2 f_equal. unfold scores. rewrite Hc. apply map_ext. intros f.
    cbn [map]. rewrite mean_row_nonempty by discriminate. now rewrite mean_single.
  - exact Hf.
  - apply contacts_have_pairs. rewrite Hc. discriminate.
  - rewrite Hc. simpl. now rewrite Hr.
Qed.

Example combinations2_of_three :
  itertools.combinations2 [1; 2; 3]%nat = [(1, 2); (1, 3); (2, 3)]%nat.
Proof. reflexivity. Qed.

Example small_heavy : md.select_atom_indices_heavy small_topology = [0; 2; 3]%nat.
Proof. reflexivity. Qed.

(** The atom of a ligand is not selected. *)
Example ligand_heavy :
  md.select_atom_indices_heavy (md.topology ligand_native) = [0; 2]%nat.
Proof. reflexivity. Qed.

(** The native structure scored against itself: one contact at 0.3 nm,
    whose score is 1 / (1 + exp (-12)). *)
Example small_scores_itself :
  best_hummer_q small_native small_native =
  ([Stdout_native_contacts 1], inr [np.finite (1 / (1 + exp (- 12)))]).
Proof.
  rewrite (single_contact_returns _ _ (0, 2)%nat small_frames small_contacts)
    by reflexivity.
  rewrite overflow_log_bounded.
  - cbn [md.n_frames small_native seq map].
    rewrite (pair_score_in_range small_native small_native 0 (0, 2)%nat 0.3 0.3 (- 12));
      [reflexivity | exact small_distance_0_2 | exact small_distance_0_2 | lra | lra].
  - intros f p _ Hp. rewrite small_contacts in Hp. destruct Hp as [E|[]]. subst p.
    rewrite (exponent_eval _ _ f _ 0.3 0.3 (- 12));
      [lra | exact small_distance_0_2 | exact small_distance_0_2 | lra].
Qed.

(** The unfolded conformation: [exp] overflows and the score is 0. *)
Example unfolded_scores_zero :
  best_hummer_q unfolded small_native =
  ([Stdout_native_contacts 1; RuntimeWarning_overflow_exp], inr [np.finite 0]).
Proof.
  rewrite (single_contact_returns _ _ (0, 2)%nat small_frames small_contacts)
    by reflexivity.
  rewrite (overflow_log_overflow unfolded small_native 0 (0, 2)%nat).
  - cbn [md.n_frames unfolded seq map].
    rewrite (pair_score_overflow unfolded small_native 0 (0, 2)%nat 5.4 0.3);
      [reflexivity | exact unfolded_distance_0_2 | exact small_distance_0_2 | lra].
  - simpl. lia.
  - rewrite small_contacts. now left.
  - rewrite unfolded_exponent. apply exp_overflows_from_128. lra.
Qed.

(** In its periodic box the structure scores as the folded one. *)
Example boxed_scores :
  best_hummer_q boxed small_native =
  ([Stdout_native_contacts 1], inr [np.finite (1 / (1 + exp (- 12)))]).
Proof.
  rewrite (single_contact_returns _ _ (0, 2)%nat small_frames small_contacts)
    by reflexivity.
  rewrite overflow_log_bounded.
  - cbn [md.n_frames boxed seq map].
    rewrite (pair_score_in_range boxed small_native 0 (0, 2)%nat 0.3 0.3 (- 12));
      [reflexivity | exact boxed_distance_0_2 | exact small_distance_0_2 | lra | lra].
  - intros f p Hf Hp. rewrite small_contacts in Hp. destruct Hp as [E|[]]. subst p.
    assert (f = 0%nat) as E by (simpl in Hf; lia). subst f.
    rewrite (exponent_eval _ _ 0 _ 0.3 0.3 (- 12));
      [lra | exact boxed_distance_0_2 | exact small_distance_0_2 | lra].
Qed.

(** Without the box the same coordinates score as a broken contact. *)
Example unboxed_scores :
  best_hummer_q unboxed small_native =
  ([Stdout_native_contacts 1], inr [np.finite (1 / (1 + exp 58))]).
Proof.
  rewrite (single_contact_returns _ _ (0, 2)%nat small_frames small_contacts)
    by reflexivity.
  rewrite overflow_log_bounded.
  - cbn [md.n_frames unboxed seq map].
    rewrite (pair_score_in_range unboxed small_native 0 (0, 2)%nat 1.7 0.3 58);
      [reflexivity | exact unboxed_distance_0_2 | exact small_distance_0_2 | lra | lra].
  - intros f p Hf Hp. rewrite small_contacts in Hp. destruct Hp as [E|[]]. subst p.
    assert (f = 0%nat) as E by (simpl in Hf; lia). subst f.
    rewrite (exponent_eval _ _ 0 _ 1.7 0.3 58);
      [lra | exact unboxed_distance_0_2 | exact small_distance_0_2 | lra].
Qed.

(** The compact structure followed by its unfolded conformation, scored
    against the compact structure: three native contacts and two frames.
    In the second frame two of the contacts overflow [exp] and score 0. *)
Example compact_then_unfolded_scores :
  best_hummer_q compact_then_unfolded compact_native =
  ([Stdout_native_contacts 3; RuntimeWarning_overflow_exp],
   inr [np.finite ((1 / (1 + exp (- 12)) + 1 / (1 + exp (- 16)) + 1 / (1 + exp (- 4))) / 3);
        np.finite ((0 + 0 + 1 / (1 + exp 21)) / 3)]).
Proof.
  assert (frame_distance compact_then_unfolded 0 (0, 2)%nat = 0.3) as A02
    by axis_distance.
  assert (frame_distance compact_then_unfolded 0 (0, 3)%nat = 0.4) as A03
    by axis_distance.
  assert (frame_distance compact_then_unfolded 0 (2, 3)%nat = 0.1) as A23
    by axis_distance.
  assert (frame_distance compact_then_unfolded 1 (0, 2)%nat = 5.4) as B02
    by axis_distance.
  assert (frame_distance compact_then_unfolded 1 (0, 3)%nat = 6) as B03
    by axis_distance.
  assert (frame_distance compact_then_unfolded 1 (2, 3)%nat = 0.6) as B23
    by axis_distance.
  rewrite best_hummer_q_returns;
    [| simpl; lia | discriminate | rewrite compact_contacts; reflexivity].
  rewrite (overflow_log_overflow compact_then_unfolded compact_native 1 (0, 2)%nat);
    [| simpl; lia | rewrite compact_contacts; now left |].
  - unfold scores. rewrite compact_contacts.
    cbn [md.n_frames compact_then_unfolded seq map length np.mean_row].
    rewrite (pair_score_in_range _ _ 0 (0, 2)%nat 0.3 0.3 (- 12) A02 compact_distance_0_2)
      by lra.
    rewrite (pair_score_in_range _ _ 0 (0, 3)%nat 0.4 0.4 (- 16) A03 compact_distance_0_3)
      by lra.
    rewrite (pair_score_in_range _ _ 0 (2, 3)%nat 0.1 0.1 (- 4) A23 compact_distance_2_3)
      by lra.
    rewrite (pair_score_overflow _ _ 1 (0, 2)%nat 5.4 0.3 B02 compact_distance_0_2)
      by lra.
    rewrite (pair_score_overflow _ _ 1 (0, 3)%nat 6 0.4 B03 compact_distance_0_3)
      by lra.
    rewrite (pair_score_in_range _ _ 1 (2, 3)%nat 0.6 0.1 21 B23 compact_distance_2_3)
      by lra.
    replace (INR 3) with 3 by (simpl; lra).
    unfold np.sum. cbn [fold_right].
    do 3 f_equal.
    + f_equal. lra.
    + do 3 f_equal. lra.
  - rewrite (exponent_eval _ _ 1 _ 5.4 0.3 243 B02 compact_distance_0_2) by lra.
    apply exp_overflows_from_128. lra.
Qed.

(** Four heavy atoms in two residues: the call raises. *)
Example two_residues_raises :
  best_hummer_q two_residues two_residues = ([], inl ValueError).
Proof.
  apply best_hummer_q_no_pairs; [simpl; lia | exact two_residues_no_pairs].
Qed.

(** A trajectory without the third atom: the call raises after the print. *)
Example short_raises :
  best_hummer_q short small_native = ([Stdout_native_contacts 1], inl ValueError).
Proof.
  rewrite best_hummer_q_out_of_range;
    [| exact small_frames | exact small_has_pairs | exact short_out_of_range].
  now rewrite small_contacts.
Qed.

Lemma other_returns :
  best_hummer_q other small_native =
  (Stdout_native_contacts 1 :: overflow_log (exponents other small_native),
   inr (scores other small_native)).
Proof.
  rewrite best_hummer_q_returns.
  - now rewrite small_contacts.
  - exact small_frames.
  - exact small_has_pairs.
  - rewrite small_contacts. reflexivity.
Qed.

Lemma small_then_unfolded_returns :
  best_hummer_q small_then_unfolded small_native =
  (Stdout_native_contacts 1 :: overflow_log (exponents small_then_unfolded small_native),
   inr (scores small_then_unfolded small_native)).
Proof.
  rewrite best_hummer_q_returns.
  - now rewrite small_contacts.
  - exact small_frames.
  - exact small_has_pairs.
  - rewrite small_contacts. reflexivity.
Qed.

Lemma half_lt_inv_one_plus_exp (x : R) : x < 0 -> 1 / 2 < 1 / (1 + exp x).
Proof.
  intros H. pose proof (exp_pos x).
  assert (exp x < 1) by (rewrite <- exp_0; now apply exp_increasing).
  unfold Rdiv. rewrite !Rmult_1_l. apply Rinv_lt_contravar; lra.
Qed.

Lemma inv_one_plus_exp_lt_half (x : R) : 0 < x -> 1 / (1 + exp x) < 1 / 2.
Proof.
  intros H.
  assert (1 < exp x) by (rewrite <- exp_0; now apply exp_increasing).
  unfold Rdiv. rewrite !Rmult_1_l. apply Rinv_lt_contravar; lra.
Qed.

Lemma distance_of_frame (t : md.Trajectory) (f : nat) (p : nat * nat) :
  md.pair_distance t f p =
  match md.unitcell t f with
  | Some box =>
      md.minimum_image_distance box (md.xyz t f (fst p)) (md.xyz t f (snd p))
  | None => euclidean t f p
  end.
Proof.
  unfold md.pair_distance, md.unitcell. now destruct (md.unitcell_lengths t).
Qed.

(** * The claims *)

(** C1, amended.  For every trajectory and native structure with a
    non-empty native contact set, the call returns one score per frame, in
    frame order, and the score of frame f is the arithmetic mean, over the
    retained pairs p, of the per-pair score: 1 / (1 + exp (50 * (r_f[p] -
    1.8 * r0[p]))) while [exp] stays within the float32 range, and 0 once
    it has left it.  The distances r_f[p] and r0[p] are those of the
    toolkit: Euclidean for a structure without unit cell, and to the
    nearest periodic image for a structure with unit cells. *)
Theorem C1_frame_score_is_mean (traj native : md.Trajectory) :
  (0 < md.n_frames native)%nat ->
  select_native_contacts_spec native <> [] ->
  (forall i j, In (i, j) (select_native_contacts_spec native) ->
               (i < md.n_atoms traj)%nat /\ (j < md.n_atoms traj)%nat) ->
  exists log qs,
    best_hummer_q traj native = (log, inr qs) /\
    length qs = md.n_frames traj /\
    (forall f, (f < md.n_frames traj)%nat ->
       nth_error qs f =
       Some (np.finite (mean (map (pair_score traj native f)
                                  (select_native_contacts_spec native))))) /\
    (forall f p,
       (exp (50 * (frame_distance traj f p - 1.8 * native_distance native p))
          <= np.FLT_MAX ->
        pair_score traj native f p =
        1 / (1 + exp (50 * (frame_distance traj f p - 1.8 * native_distance native p)))) /\
       (np.FLT_MAX
          < exp (50 * (frame_distance traj f p - 1.8 * native_distance native p)) ->
        pair_score traj native f p = 0)) /\
    (forall f p,
       frame_distance traj f p =
       match md.unitcell traj f with
       | Some box =>
           md.minimum_image_distance box (md.xyz traj f (fst p)) (md.xyz traj f (snd p))
       | None => euclidean traj f p
       end) /\
    (forall p,
       native_distance native p =
       match md.unitcell native 0 with
       | Some box =>
           md.minimum_image_distance box (md.xyz native 0 (fst p)) (md.xyz native 0 (snd p))
       | None => euclidean native 0 p
       end).
Proof.
  intros Hf Hc Hr. apply in_range_forall in Hr.
  eexists. exists (scores traj native). split; [|split; [|split; [|split; [|split]]]].
  - apply best_hummer_q_returns; [exact Hf | now apply contacts_have_pairs | exact Hr].
  - apply scores_length.
  - intros f Hlt. now apply score_of_frame.
  - intros f p. unfold pair_score. split; intros H.
    + now rewrite score_in_range.
    + now apply score_overflow.
  - intros f p. apply distance_of_frame.
  - intros p. apply distance_of_frame.
Qed.

Lemma C1_witness :
  exists log qs,
    best_hummer_q compact_then_unfolded compact_native = (log, inr qs) /\
    length qs = md.n_frames compact_then_unfolded /\
    (forall f, (f < md.n_frames compact_then_unfolded)%nat ->
       nth_error qs f =
       Some (np.finite (mean (map (pair_score compact_then_unfolded compact_native f)
                                  (select_native_contacts_spec compact_native))))) /\
    (forall f p,
       (exp (50 * (frame_distance compact_then_unfolded f p
                   - 1.8 * native_distance compact_native p))
          <= np.FLT_MAX ->
        pair_score compact_then_unfolded compact_native f p =
        1 / (1 + exp (50 * (frame_distance compact_then_unfolded f p
                            - 1.8 * native_distance compact_native p)))) /\
       (np.FLT_MAX
          < exp (50 * (frame_distance compact_then_unfolded f p
                       - 1.8 * native_distance compact_native p)) ->
        pair_score compact_then_unfolded compact_native f p = 0)) /\
    (forall f p,
       frame_distance compact_then_unfolded f p =
       match md.unitcell compact_then_unfolded f with
       | Some box =>
           md.minimum_image_distance box (md.xyz compact_then_unfolded f (fst p))
                                     (md.xyz compact_then_unfolded f (snd p))
       | None => euclidean compact_then_unfolded f p
       end) /\
    (forall p,
       native_distance compact_native p =
       match md.unitcell compact_native 0 with
       | Some box =>
           md.minimum_image_distance box (md.xyz compact_native 0 (fst p))
                                     (md.xyz compact_native 0 (snd p))
       | None => euclidean compact_native 0 p
       end).
Proof.
  apply (C1_frame_score_is_mean compact_then_unfolded compact_native).
  - simpl. lia.
  - exact compact_has_contacts.
  - intros i j Hin. rewrite compact_contacts in Hin. unfold md.n_atoms. simpl.
    destruct Hin as [E|[E|[E|[]]]]; inversion E; lia.
Defined.

(** C1 as stated fails on the distance: in a periodic box of 2 nm the
    pair of the native contact, at the Euclidean distance 1.7 nm, is
    scored with the distance 0.3 nm to its nearest image, that is as
    1 / (1 + exp (-12)) and not as 1 / (1 + exp (50 * (1.7 - 1.8 * 0.3))). *)
Lemma C1_counterexample :
  select_native_contacts_spec small_native = [(0, 2)%nat] /\
  native_distance small_native (0, 2)%nat = 0.3 /\
  euclidean boxed 0 (0, 2)%nat = 1.7 /\
  best_hummer_q boxed small_native =
    ([Stdout_native_contacts 1], inr [np.finite (1 / (1 + exp (- 12)))]) /\
  1 / (1 + exp (- 12)) <> mean [1 / (1 + exp (50 * (1.7 - 1.8 * 0.3)))].
Proof.
  split; [exact small_contacts|]. split; [exact small_distance_0_2|].
  split; [exact boxed_euclidean_0_2|]. split; [exact boxed_scores|].
  rewrite mean_single.
  pose proof (half_lt_inv_one_plus_exp (- 12)).
  pose proof (inv_one_plus_exp_lt_half (50 * (1.7 - 1.8 * 0.3))).
  lra.
Qed.

(** C2, amended.  For every native structure, the selected native contact
    set is the enumeration of the pairs of the selection 'heavy' filtered
    by the two conditions, in enumeration order
    ([select_native_contacts_spec]): a pair (i, j) is in the set exactly
    when i < j, both are non-hydrogen atoms of protein residues of the
    structure, their residue indices differ by more than 3 in absolute
    value, and their distance in the first native frame, to the nearest
    periodic image when the structure has unit cells, is below the
    float32 value of 0.45. *)
Theorem C2_native_contact_set (native : md.Trajectory) :
  (0 < md.n_frames native)%nat ->
  heavy_pairs_list native <> [] ->
  exists sel,
    select_native_contacts native = ret sel /\
    native_contacts sel = np.Array2 (select_native_contacts_spec native) /\
    forall i j,
      In (i, j) (select_native_contacts_spec native) <-> native_contact native i j.
Proof.
  intros Hf Hp. exists (returned_selection native). split; [|split].
  - now apply select_returns.
  - reflexivity.
  - apply in_spec_contacts.
Qed.

Lemma C2_witness :
  exists sel,
    select_native_contacts compact_native = ret sel /\
    native_contacts sel = np.Array2 (select_native_contacts_spec compact_native) /\
    forall i j,
      In (i, j) (select_native_contacts_spec compact_native) <->
      native_contact compact_native i j.
Proof.
  apply (C2_native_contact_set compact_native).
  - simpl. lia.
  - discriminate.
Defined.

(** C2 as stated fails in its converse and in its distance.  A pair of
    non-hydrogen atoms more than three residues apart and 0.3 nm from each
    other is not selected when one of them belongs to a ligand.  In a
    periodic box of 2 nm a pair at the Euclidean distance 1.7 nm is
    selected.  A pair of heavy atoms more than three residues apart at the
    distance 15099494 / 2 ^ 25, below 0.45, is not selected. *)
Lemma C2_counterexample :
  (exists sel,
     select_native_contacts ligand_native = ret sel /\
     native_contacts sel = np.Array2 [(0, 2)%nat] /\
     md.is_hydrogen (md.atom (md.topology ligand_native) 0) = false /\
     md.is_hydrogen (md.atom (md.topology ligand_native) 1) = false /\
     (Z.abs (residue_index ligand_native 0 - residue_index ligand_native 1) > 3)%Z /\
     euclidean ligand_native 0 (0, 1)%nat = 0.3 /\
     ~ In (0, 1)%nat [(0, 2)%nat]) /\
  (exists sel,
     select_native_contacts boxed = ret sel /\
     native_contacts sel = np.Array2 [(0, 2)%nat] /\
     euclidean boxed 0 (0, 2)%nat = 1.7) /\
  (exists sel,
     select_native_contacts edge_native = ret sel /\
     native_contacts sel = np.Array2 [] /\
     md.heavy (md.atom (md.topology edge_native) 0) = true /\
     md.heavy (md.atom (md.topology edge_native) 1) = true /\
     (Z.abs (residue_index edge_native 0 - residue_index edge_native 1) > 3)%Z /\
     euclidean edge_native 0 (0, 1)%nat = 15099494 / 33554432 /\
     15099494 / 33554432 < 0.45).
Proof.
  split; [|split].
  - exists (returned_selection ligand_native). split; [|split].
    + apply select_returns; [simpl; lia | discriminate].
    + simpl. now rewrite ligand_contacts.
    + repeat split; try reflexivity.
      * exact ligand_distance_0_1.
      * intros [E|[]]. discriminate.
  - exists (returned_selection boxed). split; [|split].
    + apply select_returns; [simpl; lia | discriminate].
    + simpl. now rewrite boxed_contacts.
    + exact boxed_euclidean_0_2.
  - exists (returned_selection edge_native). split; [|split].
    + apply select_returns; [simpl; lia | discriminate].
    + simpl. now rewrite edge_contacts.
    + repeat split; try reflexivity.
      * exact edge_euclidean_0_1.
      * lra.
Qed.

(** C3, amended.  There is no guard: [np.exp] is evaluated unchecked.  When
    the exponent argument of some pair in some frame leaves the float32
    range, the call raises nothing and returns its scores, numpy emits the
    warning "overflow encountered in exp", and the score of that pair is
    the saturated value, exactly 0. *)
Theorem C3_overflow_is_unguarded (traj native : md.Trajectory) (f k : nat)
        (p : nat * nat) :
  (0 < md.n_frames native)%nat ->
  (md.n_atoms native <= md.n_atoms traj)%nat ->
  (f < md.n_frames traj)%nat ->
  nth_error (select_native_contacts_spec native) k = Some p ->
  np.FLT_MAX < exp (BETA_CONST * (frame_distance traj f p
                                  - LAMBDA_CONST * native_distance native p)) ->
  exists log l,
    best_hummer_q_locals traj native = (log, inr l) /\
    best_hummer_q traj native = (log, inr (q l)) /\
    In RuntimeWarning_overflow_exp log /\
    np.item (s l) f k = Some 0.
Proof.
  intros Hf Hn Hlt Hk Ho.
  assert (In p (select_native_contacts_spec native)) as Hin
    by (eapply nth_error_In; eassumption).
  assert (heavy_pairs_list native <> []) as Hp.
  { apply contacts_have_pairs. intros E. now rewrite E in Hin. }
  pose proof (contacts_in_range_of_atoms _ _ Hn) as Hr.
  eexists. exists (returned_locals traj native).
  split; [now apply locals_returns|].
  split; [now apply best_hummer_q_returns|].
  split.
  - right. rewrite (overflow_log_overflow traj native f p Hlt Hin Ho). now left.
  - destruct (items_of_pair traj native f k p Hlt Hk) as [_ [_ Hs]].
    rewrite Hs. f_equal. unfold pair_score. now apply score_overflow.
Qed.

Lemma C3_witness :
  exists log l,
    best_hummer_q_locals unfolded small_native = (log, inr l) /\
    best_hummer_q unfolded small_native = (log, inr (q l)) /\
    In RuntimeWarning_overflow_exp log /\
    np.item (s l) 0 0 = Some 0.
Proof.
  apply (C3_overflow_is_unguarded unfolded small_native 0 0 (0, 2)%nat).
  - exact small_frames.
  - unfold md.n_atoms. simpl. lia.
  - simpl. lia.
  - rewrite small_contacts. reflexivity.
  - fold (exponent unfolded small_native 0 (0, 2)%nat).
    rewrite unfolded_exponent. apply exp_overflows_from_128. lra.
Defined.

(** C3 as stated fails: a frame distance of ten times the tolerance-scaled
    native distance makes the call emit the overflow warning, on its way
    to the score 0. *)
Lemma C3_counterexample :
  frame_distance unfolded 0 (0, 2)%nat =
    10 * (LAMBDA_CONST * native_distance small_native (0, 2)%nat) /\
  best_hummer_q unfolded small_native =
    ([Stdout_native_contacts 1; RuntimeWarning_overflow_exp], inr [np.finite 0]).
Proof.
  split.
  - rewrite unfolded_distance_0_2, small_distance_0_2. unfold LAMBDA_CONST. lra.
  - exact unfolded_scores_zero.
Qed.

(** C4, amended.  The call compares no topology.  The residue mapping of
    the trajectory is never read: replacing its topology by another of the
    same length leaves the result unchanged.  Its atom count is checked
    only by the distance routine against the native contact indices, after
    the native contacts were computed and printed: a trajectory with at
    least as many atoms as the native structure is scored without error,
    and one that lacks an atom of some native contact makes the call raise
    ValueError and return no score. *)
Theorem C4_no_topology_check (traj native : md.Trajectory) :
  (0 < md.n_frames native)%nat ->
  heavy_pairs_list native <> [] ->
  (forall top, length top = md.n_atoms traj ->
     best_hummer_q (with_topology traj top) native = best_hummer_q traj native) /\
  ((md.n_atoms native <= md.n_atoms traj)%nat ->
     exists log qs,
       best_hummer_q traj native = (log, inr qs) /\ length qs = md.n_frames traj) /\
  ((exists i j, In (i, j) (select_native_contacts_spec native) /\
                (md.n_atoms traj <= i \/ md.n_atoms traj <= j)%nat) ->
     best_hummer_q traj native =
     ([Stdout_native_contacts (length (select_native_contacts_spec native))],
      inl ValueError)).
Proof.
  intros Hf Hp. split; [|split].
  - intros top Hlen. apply best_hummer_q_agree.
    + reflexivity.
    + apply forallb_agree. intros p _. unfold md.in_range, md.n_atoms in *.
      simpl. now rewrite Hlen.
    + reflexivity.
  - intros Hn. eexists. exists (scores traj native). split.
    + apply best_hummer_q_returns; auto. now apply contacts_in_range_of_atoms.
    + apply scores_length.
  - intros [i [j [Hin Hout]]]. apply best_hummer_q_out_of_range; auto.
    destruct (forallb (md.in_range traj) (select_native_contacts_spec native)) eqn:E;
      [|reflexivity].
    rewrite forallb_forall in E. specialize (E _ Hin).
    unfold md.in_range in E. simpl in E.
    apply andb_true_iff in E. destruct E as [E1 E2].
    apply Nat.ltb_lt in E1, E2. lia.
Qed.

Lemma C4_witness :
  (forall top, length top = md.n_atoms short ->
     best_hummer_q (with_topology short top) small_native =
     best_hummer_q short small_native) /\
  ((md.n_atoms small_native <= md.n_atoms short)%nat ->
     exists log qs,
       best_hummer_q short small_native = (log, inr qs) /\
       length qs = md.n_frames short) /\
  ((exists i j, In (i, j) (select_native_contacts_spec small_native) /\
                (md.n_atoms short <= i \/ md.n_atoms short <= j)%nat) ->
     best_hummer_q short small_native =
     ([Stdout_native_contacts (length (select_native_contacts_spec small_native))],
      inl ValueError)).
Proof.
  apply (C4_no_topology_check short small_native).
  - exact small_frames.
  - exact small_has_pairs.
Defined.

(** C4 as stated fails: a trajectory with another atom count and another
    residue mapping than the native structure is scored without error. *)
Lemma C4_counterexample :
  md.n_atoms other <> md.n_atoms small_native /\
  map md.residue (md.topology other) <> map md.residue (md.topology small_native) /\
  best_hummer_q other small_native =
    (Stdout_native_contacts 1 :: overflow_log (exponents other small_native),
     inr (scores other small_native)) /\
  length (scores other small_native) = 2%nat.
Proof.
  split; [unfold md.n_atoms; simpl; lia|]. split; [discriminate|]. split.
  - rewrite best_hummer_q_returns.
    + now rewrite small_contacts.
    + exact small_frames.
    + exact small_has_pairs.
    + rewrite small_contacts. reflexivity.
  - apply scores_length.
Qed.

(** C5, amended.  For a native structure in which no pair survives the
    filters, the native contact set is empty and no frame scores 0.  When
    some pair passes the residue filter and none the distance filter,
    [select_native_contacts] returns the empty set and the call returns
    [nan] for every frame of the trajectory.  When no pair passes the
    residue filter, as when there are no heavy atoms, the distance
    computation on the native frame raises ValueError: neither a contact
    set nor a score is returned. *)
Theorem C5_empty_contact_set (traj native : md.Trajectory) :
  (0 < md.n_frames native)%nat ->
  select_native_contacts_spec native = [] ->
  (heavy_pairs_list native <> [] ->
     (exists sel, select_native_contacts native = ret sel /\
                  native_contacts sel = np.Array2 []) /\
     best_hummer_q traj native =
       ([Stdout_native_contacts 0], inr (repeat np.nan (md.n_frames traj)))) /\
  (heavy_pairs_list native = [] ->
     select_native_contacts native = raise ValueError /\
     best_hummer_q traj native = ([], inl ValueError)).
Proof.
  intros Hf He. split.
  - intros Hp. split.
    + exists (returned_selection native). split; [now apply select_returns|].
      simpl. now rewrite He.
    + rewrite best_hummer_q_returns; auto.
      * now rewrite (overflow_log_empty _ _ He), (scores_empty _ _ He), He.
      * now rewrite He.
  - intros Hp. split; [now apply select_no_pairs | now apply best_hummer_q_no_pairs].
Qed.

Lemma C5_witness :
  (heavy_pairs_list far_native <> [] ->
     (exists sel, select_native_contacts far_native = ret sel /\
                  native_contacts sel = np.Array2 []) /\
     best_hummer_q far_twice far_native =
       ([Stdout_native_contacts 0], inr (repeat np.nan (md.n_frames far_twice)))) /\
  (heavy_pairs_list far_native = [] ->
     select_native_contacts far_native = raise ValueError /\
     best_hummer_q far_twice far_native = ([], inl ValueError)).
Proof.
  apply (C5_empty_contact_set far_twice far_native).
  - simpl. lia.
  - exact far_contacts.
Defined.

(** C5 as stated fails: with an empty native contact set the score of the
    frame is [nan], not 0. *)
Lemma C5_counterexample :
  select_native_contacts_spec far_native = [] /\
  best_hummer_q far_native far_native = ([Stdout_native_contacts 0], inr [np.nan]) /\
  [np.nan] <> [np.finite 0].
Proof.
  split; [exact far_contacts|]. split; [|discriminate].
  rewrite best_hummer_q_returns.
  - now rewrite (overflow_log_empty _ _ far_contacts),
      (scores_empty _ _ far_contacts), far_contacts.
  - simpl. lia.
  - exact far_has_pairs.
  - now rewrite far_contacts.
Qed.

(** C6, amended.  Every per-pair score lies in the closed interval [0, 1],
    and every per-frame mean score lies in it whenever the native contact
    set is not empty. *)
Theorem C6_scores_bounded (traj native : md.Trajectory) :
  (0 < md.n_frames native)%nat ->
  heavy_pairs_list native <> [] ->
  (md.n_atoms native <= md.n_atoms traj)%nat ->
  exists log l,
    best_hummer_q_locals traj native = (log, inr l) /\
    best_hummer_q traj native = (log, inr (q l)) /\
    Forall (Forall (fun x => 0 <= x <= 1)) (s l) /\
    (select_native_contacts_spec native <> [] -> Forall in_unit_interval (q l)).
Proof.
  intros Hf Hp Hn. pose proof (contacts_in_range_of_atoms _ _ Hn) as Hr.
  assert (forall f, Forall (fun x => 0 <= x <= 1)
                      (map (pair_score traj native f) (select_native_contacts_spec native)))
    as Hb.
  { intros f. apply Forall_forall. intros x Hx.
    apply in_map_iff in Hx. destruct Hx as [p [E _]]. subst x.
    unfold pair_score. apply score_bounds. }
  eexists. exists (returned_locals traj native).
  split; [now apply locals_returns|]. split; [now apply best_hummer_q_returns|].
  split.
  - simpl s. apply Forall_forall. intros row Hrow.
    apply in_map_iff in Hrow. destruct Hrow as [f [E _]]. subst row. apply Hb.
  - intros Hc. simpl q. unfold scores. apply Forall_forall. intros x Hx.
    apply in_map_iff in Hx. destruct Hx as [f [E _]]. subst x.
    rewrite mean_row_nonempty.
    + simpl. apply mean_bounds; [|apply Hb].
      intros E. apply map_eq_nil in E. contradiction.
    + intros E. apply map_eq_nil in E. contradiction.
Qed.

Lemma C6_witness :
  exists log l,
    best_hummer_q_locals unfolded small_native = (log, inr l) /\
    best_hummer_q unfolded small_native = (log, inr (q l)) /\
    Forall (Forall (fun x => 0 <= x <= 1)) (s l) /\
    (select_native_contacts_spec small_native <> [] -> Forall in_unit_interval (q l)).
Proof.
  apply (C6_scores_bounded unfolded small_native).
  - exact small_frames.
  - exact small_has_pairs.
  - unfold md.n_atoms. simpl. lia.
Defined.

(** C6 as stated fails for the per-frame score: with an empty native
    contact set the scores of the frames are [nan], outside [0, 1]. *)
Lemma C6_counterexample :
  best_hummer_q far_twice far_native =
    ([Stdout_native_contacts 0], inr [np.nan; np.nan]) /\
  ~ Forall in_unit_interval [np.nan; np.nan].
Proof.
  split.
  - rewrite best_hummer_q_returns.
    + now rewrite (overflow_log_empty _ _ far_contacts),
        (scores_empty _ _ far_contacts), far_contacts.
    + simpl. lia.
    + exact far_has_pairs.
    + now rewrite far_contacts.
  - intros H. inversion H as [|x l Hx _]. exact Hx.
Qed.

(** C7, amended.  When the scored trajectory is the first frame of the
    native structure itself, then for every retained pair the frame
    distance is the native distance, the score is
    1 / (1 + exp (50 * (1 - 1.8) * r0[p])), and it lies between 0.5 and 1:
    it is 0.5, and not above, for a pair with r0[p] = 0. *)
Theorem C7_native_frame_scores (native : md.Trajectory) :
  (0 < md.n_frames native)%nat ->
  heavy_pairs_list native <> [] ->
  exists frame log l,
    md.getitem native 0 = ret frame /\
    best_hummer_q_locals frame native = (log, inr l) /\
    native_contacts (selected l) = np.Array2 (select_native_contacts_spec native) /\
    r l = r0 l /\
    forall k p, nth_error (select_native_contacts_spec native) k = Some p ->
      np.item (r0 l) 0 k = Some (native_distance native p) /\
      np.item (r l) 0 k = Some (native_distance native p) /\
      np.item (s l) 0 k =
        Some (1 / (1 + exp (50 * (1 - 1.8) * native_distance native p))) /\
      0.5 <= 1 / (1 + exp (50 * (1 - 1.8) * native_distance native p)) <= 1 /\
      (native_distance native p = 0 ->
       1 / (1 + exp (50 * (1 - 1.8) * native_distance native p)) = 0.5).
Proof.
  intros Hf Hp.
  assert (forallb (md.in_range (first_frame native)) (select_native_contacts_spec native)
          = true) as Hr by (apply contacts_in_range_of_atoms; apply Nat.le_refl).
  exists (first_frame native). eexists.
  exists (returned_locals (first_frame native) native).
  split; [now apply getitem_first|].
  split; [now apply locals_returns|].
  split; [reflexivity|].
  assert (r (returned_locals (first_frame native) native) =
          r0 (returned_locals (first_frame native) native)) as Hrr.
  { simpl. f_equal. apply map_ext. intros p. apply first_frame_distance. }
  split; [exact Hrr|].
  intros k p Hk.
  assert (0 < md.n_frames (first_frame native))%nat as H0 by (simpl; lia).
  destruct (items_of_pair (first_frame native) native 0 k p H0 Hk) as [Hr0 [_ Hs]].
  pose proof (pair_distance_nonneg native 0 p) as Hd.
  fold (native_distance native p) in Hd.
  assert (pair_score (first_frame native) native 0 p =
          1 / (1 + exp (50 * (1 - 1.8) * native_distance native p))) as Hsc.
  { unfold pair_score. rewrite first_frame_distance, score_in_range.
    - apply sigmoid_native.
    - apply exp_in_range_to_80. lra. }
  split; [exact Hr0|]. split; [now rewrite Hrr|].
  split; [now rewrite Hs, Hsc|].
  rewrite <- sigmoid_native. split.
  - pose proof (sigmoid_native_ge_half _ Hd).
    pose proof (sigmoid_lt_1 (native_distance native p) (native_distance native p)).
    lra.
  - intros E. rewrite E. unfold sigmoid.
    replace (50 * (0 - 1.8 * 0)) with 0 by lra. rewrite exp_0. lra.
Qed.

Lemma C7_witness :
  exists frame log l,
    md.getitem compact_native 0 = ret frame /\
    best_hummer_q_locals frame compact_native = (log, inr l) /\
    native_contacts (selected l) =
      np.Array2 (select_native_contacts_spec compact_native) /\
    r l = r0 l /\
    forall k p, nth_error (select_native_contacts_spec compact_native) k = Some p ->
      np.item (r0 l) 0 k = Some (native_distance compact_native p) /\
      np.item (r l) 0 k = Some (native_distance compact_native p) /\
      np.item (s l) 0 k =
        Some (1 / (1 + exp (50 * (1 - 1.8) * native_distance compact_native p))) /\
      0.5 <= 1 / (1 + exp (50 * (1 - 1.8) * native_distance compact_native p)) <= 1 /\
      (native_distance compact_native p = 0 ->
       1 / (1 + exp (50 * (1 - 1.8) * native_distance compact_native p)) = 0.5).
Proof.
  apply (C7_native_frame_scores compact_native).
  - simpl. lia.
  - discriminate.
Defined.

(** C7 as stated fails in its last part: r0[p] > 0 does not hold for every
    retained pair, and the score is then not above 0.5.  Two heavy atoms
    at one place, more than three residues apart, are a native contact
    with r0 = 0, whose score against the native frame is exactly 0.5. *)
Lemma C7_counterexample :
  exists log l,
    best_hummer_q_locals (first_frame coincident) coincident = (log, inr l) /\
    native_contacts (selected l) = np.Array2 [(0, 1)%nat] /\
    np.item (r0 l) 0 0 = Some 0 /\
    np.item (r l) 0 0 = Some 0 /\
    np.item (s l) 0 0 = Some 0.5 /\
    q l = [np.finite 0.5].
Proof.
  assert (pair_score (first_frame coincident) coincident 0 (0, 1)%nat = 0.5) as Hs.
  { rewrite (pair_score_in_range _ _ _ _ 0 0 0).
    - rewrite exp_0. lra.
    - rewrite first_frame_distance. exact coincident_distance_0_1.
    - exact coincident_distance_0_1.
    - lra.
    - lra. }
  eexists. exists (returned_locals (first_frame coincident) coincident).
  split.
  - apply locals_returns; [simpl; lia | discriminate |].
    rewrite coincident_contacts. reflexivity.
  - split; [simpl; now rewrite coincident_contacts|].
    rewrite item_r0, item_r, item_s. simpl q. unfold scores.
    rewrite coincident_contacts.
    cbn [md.n_frames first_frame Nat.ltb Nat.leb nth_error option_map seq map].
    rewrite first_frame_distance, coincident_distance_0_1, Hs.
    repeat split.
    rewrite mean_row_nonempty by discriminate. now rewrite mean_single.
Qed.

(** C8, amended.  For every retained pair, the native distance being
    fixed, the per-pair score never increases with the frame distance:
    between any two frames, when the distance of the pair is a in one and
    b in the other with a <= b, its score at b is at most its score at a.
    It is not strictly decreasing. *)
Theorem C8_score_nonincreasing (traj native : md.Trajectory) :
  (0 < md.n_frames native)%nat ->
  heavy_pairs_list native <> [] ->
  (md.n_atoms native <= md.n_atoms traj)%nat ->
  exists log l,
    best_hummer_q_locals traj native = (log, inr l) /\
    native_contacts (selected l) = np.Array2 (select_native_contacts_spec native) /\
    (forall k p f g,
       nth_error (select_native_contacts_spec native) k = Some p ->
       (f < md.n_frames traj)%nat ->
       (g < md.n_frames traj)%nat ->
       exists d a b sa sb,
         np.item (r0 l) 0 k = Some d /\
         np.item (r l) f k = Some a /\
         np.item (r l) g k = Some b /\
         np.item (s l) f k = Some sa /\
         np.item (s l) g k = Some sb /\
         sa = score a d /\
         sb = score b d /\
         (a <= b -> sb <= sa)) /\
    (forall d a b, a <= b -> score b d <= score a d).
Proof.
  intros Hf Hp Hn. pose proof (contacts_in_range_of_atoms _ _ Hn) as Hr.
  eexists. exists (returned_locals traj native).
  split; [now apply locals_returns|]. split; [reflexivity|]. split.
  - intros k p f g Hk Hlf Hlg.
    destruct (items_of_pair traj native f k p Hlf Hk) as [Hr0 [Hrf Hsf]].
    destruct (items_of_pair traj native g k p Hlg Hk) as [_ [Hrg Hsg]].
    exists (native_distance native p), (frame_distance traj f p),
      (frame_distance traj g p), (pair_score traj native f p),
      (pair_score traj native g p).
    repeat split; try assumption.
    intros Hab. unfold pair_score. now apply score_nonincreasing.
  - intros d a b. apply score_nonincreasing.
Qed.

Lemma C8_witness :
  exists log l,
    best_hummer_q_locals other small_native = (log, inr l) /\
    native_contacts (selected l) = np.Array2 (select_native_contacts_spec small_native) /\
    (forall k p f g,
       nth_error (select_native_contacts_spec small_native) k = Some p ->
       (f < md.n_frames other)%nat ->
       (g < md.n_frames other)%nat ->
       exists d a b sa sb,
         np.item (r0 l) 0 k = Some d /\
         np.item (r l) f k = Some a /\
         np.item (r l) g k = Some b /\
         np.item (s l) f k = Some sa /\
         np.item (s l) g k = Some sb /\
         sa = score a d /\
         sb = score b d /\
         (a <= b -> sb <= sa)) /\
    (forall d a b, a <= b -> score b d <= score a d).
Proof.
  apply (C8_score_nonincreasing other small_native).
  - exact small_frames.
  - exact small_has_pairs.
  - unfold md.n_atoms. simpl. lia.
Defined.

(** C8 as stated fails: the score is not strictly decreasing.  With the
    native distance 0.3, the frame distances 5.4 and 6 of the retained
    pair both score exactly 0. *)
Lemma C8_counterexample :
  exists log l,
    best_hummer_q_locals unfolded_then_torn small_native = (log, inr l) /\
    native_contacts (selected l) = np.Array2 [(0, 2)%nat] /\
    np.item (r0 l) 0 0 = Some 0.3 /\
    np.item (r l) 0 0 = Some 5.4 /\
    np.item (r l) 1 0 = Some 6 /\
    5.4 < 6 /\
    np.item (s l) 0 0 = Some 0 /\
    np.item (s l) 1 0 = Some 0.
Proof.
  assert (frame_distance unfolded_then_torn 0 (0, 2)%nat = 5.4) as H0
    by axis_distance.
  assert (frame_distance unfolded_then_torn 1 (0, 2)%nat = 6) as H1
    by axis_distance.
  eexists. exists (returned_locals unfolded_then_torn small_native).
  split.
  - apply locals_returns; [exact small_frames | exact small_has_pairs |].
    rewrite small_contacts. reflexivity.
  - split; [simpl; now rewrite small_contacts|].
    rewrite item_r0, !item_r, !item_s, small_contacts.
    cbn [md.n_frames unfolded_then_torn Nat.ltb Nat.leb nth_error option_map].
    rewrite small_distance_0_2, H0, H1.
    rewrite (pair_score_overflow _ _ 0 _ 5.4 0.3 H0 small_distance_0_2) by lra.
    rewrite (pair_score_overflow _ _ 1 _ 6 0.3 H1 small_distance_0_2) by lra.
    repeat split. lra.
Qed.

(** C9. The reference distances r0, recomputed over the native contacts on
    the first native frame, are the heavy-pair distances computed first,
    restricted to the entries the distance filter selects; each of them is
    strictly below 0.45, and the tolerance-scaled threshold 1.8 * r0[p] is
    strictly below 0.81. *)
Theorem C9_reference_distances (traj native : md.Trajectory) :
  (0 < md.n_frames native)%nat ->
  heavy_pairs_list native <> [] ->
  (md.n_atoms native <= md.n_atoms traj)%nat ->
  exists log l,
    best_hummer_q_locals traj native = (log, inr l) /\
    r0 l = [np.select (heavy_pairs_distances (selected l))
                      (np.less (heavy_pairs_distances (selected l)) NATIVE_CUTOFF)] /\
    forall k d, np.item (r0 l) 0 k = Some d -> d < 0.45 /\ LAMBDA_CONST * d < 0.81.
Proof.
  intros Hf Hp Hn. pose proof (contacts_in_range_of_atoms _ _ Hn) as Hr.
  eexists. exists (returned_locals traj native).
  split; [now apply locals_returns|]. split.
  - simpl. unfold np.less.
    rewrite (select_map_values _ _ (native_distance native)
               (fun x => np.Rltb x (np.float32 NATIVE_CUTOFF))).
    now rewrite spec_contacts_filter.
  - intros k d Hd. rewrite item_r0 in Hd.
    destruct (nth_error (select_native_contacts_spec native) k) as [p|] eqn:Hk;
      [|discriminate].
    simpl in Hd. inversion Hd as [Hd'].
    apply nth_error_In in Hk. destruct p as [i j].
    apply in_spec_contacts in Hk. unfold native_contact in Hk.
    rewrite float32_0_45 in Hk.
    unfold LAMBDA_CONST. lra.
Qed.

Lemma C9_witness :
  exists log l,
    best_hummer_q_locals small_native small_native = (log, inr l) /\
    r0 l = [np.select (heavy_pairs_distances (selected l))
                      (np.less (heavy_pairs_distances (selected l)) NATIVE_CUTOFF)] /\
    forall k d, np.item (r0 l) 0 k = Some d -> d < 0.45 /\ LAMBDA_CONST * d < 0.81.
Proof.
  apply (C9_reference_distances small_native small_native).
  - exact small_frames.
  - exact small_has_pairs.
  - simpl. lia.
Defined.

(** C10, amended.  The result depends on the trajectory only through its
    frames, the coordinates of the atoms that occur in some native
    contact, all of them heavy, and the unit cells of its frames: two
    trajectories with as many frames, which have the same atoms of native
    contacts at the same coordinates in every frame and the same unit
    cells, give the same result, output and scores alike. *)
Theorem C10_depends_on_contact_atoms (t1 t2 native : md.Trajectory) :
  md.n_frames t1 = md.n_frames t2 ->
  (forall a, contact_atom native a ->
             (a < md.n_atoms t1)%nat <-> (a < md.n_atoms t2)%nat) ->
  (forall f a, (f < md.n_frames t1)%nat -> contact_atom native a ->
               md.xyz t1 f a = md.xyz t2 f a) ->
  (forall f, (f < md.n_frames t1)%nat -> md.unitcell t1 f = md.unitcell t2 f) ->
  (forall a, contact_atom native a ->
             md.heavy (md.atom (md.topology native) a) = true) /\
  best_hummer_q t1 native = best_hummer_q t2 native.
Proof.
  intros Hn Ha Hx Hc. split.
  - apply contact_atom_heavy.
  - apply best_hummer_q_agree.
    + exact Hn.
    + now apply in_range_contact_atoms.
    + intros f p Hf Hp. apply pair_distance_agree.
      * apply Hx; [exact Hf | exists p; auto].
      * apply Hx; [exact Hf | exists p; auto].
      * now apply Hc.
Qed.

Lemma C10_witness :
  (forall a, contact_atom small_native a ->
             md.heavy (md.atom (md.topology small_native) a) = true) /\
  best_hummer_q small_native small_native = best_hummer_q small_moved small_native.
Proof.
  apply (C10_depends_on_contact_atoms small_native small_moved small_native).
  - reflexivity.
  - intros a _. unfold md.n_atoms. simpl. tauto.
  - intros f a _ [p [Hin Ha]]. rewrite small_contacts in Hin.
    destruct Hin as [E|[]]. subst p. simpl in Ha.
    destruct Ha; subst a; reflexivity.
  - intros f _. reflexivity.
Defined.

(** C10 as stated fails: two trajectories that agree on the coordinates of
    all atoms in every frame, one of them in a periodic box, get different
    scores. *)
Lemma C10_counterexample :
  md.n_frames boxed = md.n_frames unboxed /\
  md.topology boxed = md.topology unboxed /\
  (forall f a, md.xyz boxed f a = md.xyz unboxed f a) /\
  best_hummer_q boxed small_native =
    ([Stdout_native_contacts 1], inr [np.finite (1 / (1 + exp (- 12)))]) /\
  best_hummer_q unboxed small_native =
    ([Stdout_native_contacts 1], inr [np.finite (1 / (1 + exp 58))]) /\
  1 / (1 + exp (- 12)) <> 1 / (1 + exp 58).
Proof.
  split; [reflexivity|]. split; [reflexivity|]. split; [reflexivity|].
  split; [exact boxed_scores|]. split; [exact unboxed_scores|].
  pose proof (half_lt_inv_one_plus_exp (- 12)).
  pose proof (inv_one_plus_exp_lt_half 58).
  lra.
Qed.

(** * Further properties of the function *)

(** ** The behaviour by cases *)

(** X1. A call returns scores exactly when the native structure has a
    frame, some pair of heavy atoms is more than three residues apart, and
    every atom of a native contact exists in the trajectory.  A call that
    returns gives one score per frame of the trajectory, and the first
    thing it wrote is the number of native contacts. *)
Theorem X1_returns_exactly_when (traj native : md.Trajectory) :
  ((exists log qs, best_hummer_q traj native = (log, inr qs)) <->
   ((0 < md.n_frames native)%nat /\
    heavy_pairs_list native <> [] /\
    forall i j, In (i, j) (select_native_contacts_spec native) ->
                (i < md.n_atoms traj)%nat /\ (j < md.n_atoms traj)%nat)) /\
  (forall log qs, best_hummer_q traj native = (log, inr qs) ->
     length qs = md.n_frames traj /\
     exists warnings,
       log = Stdout_native_contacts (length (select_native_contacts_spec native))
               :: warnings).
Proof.
  split.
  - split.
    + intros [log [qs H]]. apply best_hummer_q_returns_inv in H.
      destruct H as [Hf [Hp [Hr _]]]. rewrite in_range_forall in Hr. auto.
    + intros [Hf [Hp Hr]]. rewrite <- in_range_forall in Hr.
      eexists. eexists. now apply best_hummer_q_returns.
  - intros log qs H. apply best_hummer_q_returns_inv in H.
    destruct H as [_ [_ [_ [Hl Hq]]]]. subst. split.
    + apply scores_length.
    + eexists. reflexivity.
Qed.

(** X2. A call that fails raises IndexError exactly when the native
    structure has no frame, and ValueError otherwise.  It never emitted the
    overflow warning, and it printed the number of native contacts only
    when the failure is that the trajectory lacks an atom of a native
    contact; in the other failures nothing was written. *)
Theorem X2_failures (traj native : md.Trajectory) log e :
  best_hummer_q traj native = (log, inl e) ->
  (e = IndexError <-> md.n_frames native = 0%nat) /\
  (e = ValueError <-> (0 < md.n_frames native)%nat) /\
  ~ In RuntimeWarning_overflow_exp log /\
  (log = [] \/
   (log = [Stdout_native_contacts (length (select_native_contacts_spec native))] /\
    exists i j, In (i, j) (select_native_contacts_spec native) /\
                (md.n_atoms traj <= i \/ md.n_atoms traj <= j)%nat)).
Proof.
  intros H. apply best_hummer_q_raises_inv in H.
  destruct H as [[Hf [He Hl]] | [[Hf [Hp [He Hl]]] | [Hf [Hp [Hr [He Hl]]]]]]; subst.
  - split; [tauto|]. split; [split; [discriminate | lia]|].
    split; [intros []|]. now left.
  - split; [split; [discriminate | lia]|]. split; [tauto|].
    split; [intros []|]. now left.
  - split; [split; [discriminate | lia]|]. split; [tauto|].
    split; [intros [E|[]]; discriminate|].
    right. split; [reflexivity|].
    destruct (existsb (fun p => negb (md.in_range traj p))
                      (select_native_contacts_spec native)) eqn:Ex.
    + apply existsb_exists in Ex. destruct Ex as [[i j] [Hin Hn]].
      exists i, j. split; [exact Hin|].
      unfold md.in_range in Hn. simpl in Hn.
      apply negb_true_iff, andb_false_iff in Hn.
      rewrite !Nat.ltb_ge in Hn. exact Hn.
    + exfalso. rewrite <- not_true_iff_false in Hr. apply Hr.
      apply forallb_forall. intros p Hin.
      destruct (md.in_range traj p) eqn:Ep; [reflexivity|].
      rewrite <- not_true_iff_false in Ex. exfalso. apply Ex.
      apply existsb_exists. exists p. now rewrite Ep.
Qed.

Lemma X2_witness :
  (ValueError = IndexError <-> md.n_frames small_native = 0%nat) /\
  (ValueError = ValueError <-> (0 < md.n_frames small_native)%nat) /\
  ~ In RuntimeWarning_overflow_exp [Stdout_native_contacts 1] /\
  ([Stdout_native_contacts 1] = [] \/
   ([Stdout_native_contacts 1] =
      [Stdout_native_contacts (length (select_native_contacts_spec small_native))] /\
    exists i j, In (i, j) (select_native_contacts_spec small_native) /\
                (md.n_atoms short <= i \/ md.n_atoms short <= j)%nat)).
Proof.
  apply (X2_failures short small_native).
  rewrite best_hummer_q_out_of_range.
  - now rewrite small_contacts.
  - exact small_frames.
  - exact small_has_pairs.
  - exact short_out_of_range.
Defined.

(** X3. Only the first conformation of the native structure is used: two
    native structures with the same topology and the same first frame,
    coordinates and unit cell, whatever their other frames, give the same
    result on every trajectory. *)
Theorem X3_only_first_native_frame (traj n1 n2 : md.Trajectory) :
  md.topology n1 = md.topology n2 ->
  (0 < md.n_frames n1)%nat ->
  (0 < md.n_frames n2)%nat ->
  (forall a, (a < md.n_atoms n1)%nat -> md.xyz n1 0 a = md.xyz n2 0 a) ->
  md.unitcell n1 0 = md.unitcell n2 0 ->
  best_hummer_q traj n1 = best_hummer_q traj n2.
Proof.
  intros Htop H1 H2 Hx Hc. rewrite !best_hummer_q_outcome.
  apply outcome_congr; auto.
  - destruct (md.n_frames n1), (md.n_frames n2); try lia; reflexivity.
  - intros p Hp.
    pose proof (heavy_pairs_in_range n1) as Hr.
    rewrite forallb_forall in Hr. specialize (Hr p Hp).
    unfold md.in_range in Hr. apply andb_true_iff in Hr.
    rewrite !Nat.ltb_lt in Hr. destruct Hr as [Hi Hj].
    unfold native_distance. apply pair_distance_agree; auto.
Qed.

Lemma X3_witness :
  best_hummer_q other small_native = best_hummer_q other small_then_unfolded.
Proof.
  apply (X3_only_first_native_frame other small_native small_then_unfolded).
  - reflexivity.
  - simpl. lia.
  - simpl. lia.
  - intros a _. reflexivity.
  - reflexivity.
Defined.

(** X4. The frames are scored independently: scoring frame f of a
    trajectory on its own returns the single score that the whole
    trajectory gets at position f. *)
Theorem X4_frame_scored_alone (traj native : md.Trajectory) (f : nat) log qs :
  best_hummer_q traj native = (log, inr qs) ->
  (f < md.n_frames traj)%nat ->
  exists frame log' x,
    md.getitem traj f = ret frame /\
    best_hummer_q frame native = (log', inr [x]) /\
    nth_error qs f = Some x.
Proof.
  intros H Hlt. apply best_hummer_q_returns_inv in H.
  destruct H as [Hf [Hp [Hr [_ Hq]]]]. subst qs.
  exists {| md.topology := md.topology traj; md.n_frames := 1;
            md.xyz := fun _ => md.xyz traj f;
            md.unitcell_lengths :=
              option_map (fun box _ => box f) (md.unitcell_lengths traj) |}.
  eexists. eexists. split; [|split].
  - unfold md.getitem. apply Nat.ltb_lt in Hlt. now rewrite Hlt.
  - rewrite best_hummer_q_returns; [reflexivity | exact Hf | exact Hp | exact Hr].
  - rewrite (scores_nth _ _ _ Hlt). do 2 f_equal.
    apply map_ext. intros p. unfold pair_score, frame_distance.
    now rewrite pair_distance_frame.
Qed.

Lemma X4_witness :
  exists frame log' x,
    md.getitem other 1 = ret frame /\
    best_hummer_q frame small_native = (log', inr [x]) /\
    nth_error (scores other small_native) 1 = Some x.
Proof.
  apply (X4_frame_scored_alone other small_native 1 _ _ other_returns).
  simpl. lia.
Defined.

(** X5. A trajectory without frames is not an error: the native contacts,
    of which there are some, are computed and counted, and the call
    returns the empty array of scores without any warning. *)
Theorem X5_empty_trajectory (traj native : md.Trajectory) :
  md.n_frames traj = 0%nat ->
  (0 < md.n_frames native)%nat ->
  select_native_contacts_spec native <> [] ->
  (md.n_atoms native <= md.n_atoms traj)%nat ->
  best_hummer_q traj native =
  ([Stdout_native_contacts (length (select_native_contacts_spec native))], inr []).
Proof.
  intros H0 Hf Hc Hn.
  rewrite best_hummer_q_returns;
    auto using contacts_in_range_of_atoms, contacts_have_pairs.
  unfold overflow_log, exponents, scores. now rewrite H0.
Qed.

Lemma X5_witness :
  best_hummer_q no_frames small_native =
  ([Stdout_native_contacts (length (select_native_contacts_spec small_native))], inr []).
Proof.
  apply (X5_empty_trajectory no_frames small_native).
  - reflexivity.
  - exact small_frames.
  - exact small_has_contacts.
  - unfold md.n_atoms. simpl. lia.
Defined.

(** ** Sums and means of scores *)

(** X7. A frame in which every native contact is at most as stretched as
    in another frame scores at least as high as that frame. *)
Theorem X7_closer_frame_scores_higher (traj native : md.Trajectory) (f g : nat) log qs :
  best_hummer_q traj native = (log, inr qs) ->
  select_native_contacts_spec native <> [] ->
  (f < md.n_frames traj)%nat ->
  (g < md.n_frames traj)%nat ->
  (forall p, In p (select_native_contacts_spec native) ->
             frame_distance traj f p <= frame_distance traj g p) ->
  exists x y,
    nth_error qs f = Some (np.finite x) /\
    nth_error qs g = Some (np.finite y) /\
    y <= x.
Proof.
  intros H Hc Hf Hg Hd. apply best_hummer_q_returns_inv in H.
  destruct H as [_ [_ [_ [_ Hq]]]]. subst qs.
  eexists. eexists. split; [|split].
  - now apply score_of_frame.
  - now apply score_of_frame.
  - apply mean_map_le; [exact Hc|].
    intros p Hp. unfold pair_score. apply score_nonincreasing. now apply Hd.
Qed.

Lemma X7_witness :
  exists x y,
    nth_error (scores small_then_unfolded small_native) 0 = Some (np.finite x) /\
    nth_error (scores small_then_unfolded small_native) 1 = Some (np.finite y) /\
    y <= x.
Proof.
  apply (X7_closer_frame_scores_higher small_then_unfolded small_native 0 1 _ _
           small_then_unfolded_returns).
  - exact small_has_contacts.
  - simpl. lia.
  - simpl. lia.
  - intros p Hp. rewrite small_contacts in Hp. destruct Hp as [E|[]]. subst p.
    unfold frame_distance, md.pair_distance.
    cbn [md.xyz md.unitcell_lengths small_then_unfolded small_frame unfolded_frame
         fst snd].
    rewrite !distance_on_axis; lra.
Defined.

(** ** Counting the native contacts *)

Lemma combinations2_NoDup (l : list nat) :
  StronglySorted lt l -> NoDup (itertools.combinations2 l).
Proof.
  induction 1 as [|x l Hs IH Hx]; simpl; [constructor|].
  rewrite Forall_forall in Hx.
  assert (NoDup l) as Hnd.
  { clear IH. induction Hs as [|y l Hs IH' Hy]; constructor.
    - rewrite Forall_forall in Hy. intros Hin. apply Hy in Hin. lia.
    - apply IH'. intros z Hz. apply Hx. now right. }
  apply NoDup_app.
  - apply NoDup_map_NoDup_ForallPairs; [|exact Hnd].
    intros a b _ _ E. now inversion E.
  - exact IH.
  - intros [a b] Hin Hin2. apply in_map_iff in Hin.
    destruct Hin as [y [E Hy]]. inversion E; subst.
    apply in_combinations2_split in Hin2. destruct Hin2 as [Ha _].
    apply Hx in Ha. lia.
Qed.

Lemma combinations2_length (A : Type) (l : list A) :
  (2 * length (itertools.combinations2 l) = length l * (length l - 1))%nat.
Proof.
  induction l as [|x l IH]; [reflexivity|].
  simpl itertools.combinations2. rewrite length_app, length_map.
  simpl length. destruct (length l) as [|m]; [simpl in *; lia|].
  simpl in IH. nia.
Qed.

Lemma heavy_length (top : md.Topology) :
  (length (md.select_atom_indices_heavy top) <= length top)%nat.
Proof.
  unfold md.select_atom_indices_heavy.
  pose proof (filter_length_le (fun i => md.heavy (md.atom top i))
                (seq 0 (length top))) as H.
  now rewrite length_seq in H.
Qed.

(** X10. No pair occurs twice among the native contacts, so that each
    contact weighs once in the mean, and the count that is printed is at
    most h (h - 1) / 2 for h heavy atoms. *)
Theorem X10_contacts_counted_once (native : md.Trajectory) :
  (0 < md.n_frames native)%nat ->
  heavy_pairs_list native <> [] ->
  exists sel rows,
    select_native_contacts native = ret sel /\
    native_contacts sel = np.Array2 rows /\
    NoDup rows /\
    (2 * np.len (native_contacts sel) <= length (heavy sel) * (length (heavy sel) - 1))%nat /\
    (length (heavy sel) <= md.n_atoms native)%nat.
Proof.
  intros Hf Hp. exists (returned_selection native).
  exists (select_native_contacts_spec native).
  split; [now apply select_returns|]. split; [reflexivity|]. split; [|split].
  - unfold select_native_contacts_spec.
    apply NoDup_filter, combinations2_NoDup, heavy_sorted.
  - change (np.len (native_contacts (returned_selection native)))
      with (length (select_native_contacts_spec native)).
    change (heavy (returned_selection native))
      with (md.select_atom_indices_heavy (md.topology native)).
    rewrite <- combinations2_length.
    apply Nat.mul_le_mono_l. unfold select_native_contacts_spec.
    apply filter_length_le.
  - simpl. apply heavy_length.
Qed.

Lemma X10_witness :
  exists sel rows,
    select_native_contacts small_native = ret sel /\
    native_contacts sel = np.Array2 rows /\
    NoDup rows /\
    (2 * np.len (native_contacts sel) <= length (heavy sel) * (length (heavy sel) - 1))%nat /\
    (length (heavy sel) <= md.n_atoms small_native)%nat.
Proof.
  apply (X10_contacts_counted_once small_native).
  - exact small_frames.
  - exact small_has_pairs.
Defined.

(** ** Calls that stay within the float32 range *)

(** X11. A trajectory in which no native contact, of which there are
    some, is stretched beyond its tolerance-scaled native distance by more
    than 1.6 nm is scored without the overflow warning: every exponent
    argument is at most 80, [exp] stays within the float32 range, and the
    only thing written is the number of native contacts. *)
Theorem X11_no_warning_within_reach (traj native : md.Trajectory) :
  (0 < md.n_frames native)%nat ->
  select_native_contacts_spec native <> [] ->
  (md.n_atoms native <= md.n_atoms traj)%nat ->
  (forall f p, (f < md.n_frames traj)%nat ->
               In p (select_native_contacts_spec native) ->
               frame_distance traj f p <= LAMBDA_CONST * native_distance native p + 1.6) ->
  best_hummer_q traj native =
    ([Stdout_native_contacts (length (select_native_contacts_spec native))],
     inr (scores traj native)) /\
  (forall f p, (f < md.n_frames traj)%nat ->
               In p (select_native_contacts_spec native) ->
               exponent traj native f p <= 80 /\
               exp (exponent traj native f p) <= np.FLT_MAX).
Proof.
  intros Hf Hc Hn Hd.
  assert (forall f p, (f < md.n_frames traj)%nat ->
                      In p (select_native_contacts_spec native) ->
                      exponent traj native f p <= 80) as Hb.
  { intros f p Hlt Hin. specialize (Hd f p Hlt Hin).
    unfold exponent, BETA_CONST. lra. }
  split.
  - rewrite best_hummer_q_returns;
      auto using contacts_in_range_of_atoms, contacts_have_pairs.
    now rewrite overflow_log_bounded.
  - intros f p Hlt Hin. split; [now apply Hb|].
    apply exp_in_range_to_80. now apply Hb.
Qed.

Lemma X11_witness :
  best_hummer_q small_native small_native =
    ([Stdout_native_contacts (length (select_native_contacts_spec small_native))],
     inr (scores small_native small_native)) /\
  (forall f p, (f < md.n_frames small_native)%nat ->
               In p (select_native_contacts_spec small_native) ->
               exponent small_native small_native f p <= 80 /\
               exp (exponent small_native small_native f p) <= np.FLT_MAX).
Proof.
  apply (X11_no_warning_within_reach small_native small_native).
  - exact small_frames.
  - exact small_has_contacts.
  - simpl. lia.
  - intros f p _ Hp. rewrite small_contacts in Hp. destruct Hp as [E|[]]. subst p.
    change (frame_distance small_native f (0, 2)%nat)
      with (native_distance small_native (0, 2)%nat).
    rewrite small_distance_0_2. unfold LAMBDA_CONST. lra.
Defined.

(** X12. The native structure scored against itself never falls below one
    half and raises no warning: the call on its first frame returns a
    single score in [0.5, 1]. *)
Theorem X12_native_scores_at_least_half (native : md.Trajectory) :
  (0 < md.n_frames native)%nat ->
  select_native_contacts_spec native <> [] ->
  exists x,
    best_hummer_q (first_frame native) native =
      ([Stdout_native_contacts (length (select_native_contacts_spec native))],
       inr [np.finite x]) /\
    1 / 2 <= x <= 1.
Proof.
  intros Hf Hc.
  pose proof (contacts_have_pairs _ Hc) as Hp.
  assert (forall f p, exponent (first_frame native) native f p <= 0) as He.
  { intros f p. unfold exponent, BETA_CONST, LAMBDA_CONST.
    rewrite first_frame_distance.
    pose proof (pair_distance_nonneg native 0 p) as Hd.
    fold (native_distance native p) in Hd. lra. }
  exists (mean (map (pair_score (first_frame native) native 0)
                    (select_native_contacts_spec native))).
  split.
  - rewrite best_hummer_q_returns;
      [| exact Hf | exact Hp | apply contacts_in_range_of_atoms, Nat.le_refl].
    rewrite overflow_log_bounded.
    + unfold scores. change (md.n_frames (first_frame native)) with 1%nat.
      cbn [seq map]. rewrite mean_row_nonempty; [reflexivity|].
      intros E. apply map_eq_nil in E. contradiction.
    + intros f p _ _. specialize (He f p). lra.
  - apply mean_bounds.
    + intros E. apply map_eq_nil in E. contradiction.
    + apply Forall_forall. intros x Hx. apply in_map_iff in Hx.
      destruct Hx as [p [E _]]. subst x. unfold pair_score.
      rewrite first_frame_distance.
      pose proof (pair_distance_nonneg native 0 p) as Hd.
      fold (native_distance native p) in Hd.
      rewrite score_in_range by (apply exp_in_range_to_80; lra).
      pose proof (sigmoid_lt_1 (native_distance native p) (native_distance native p)).
      pose proof (sigmoid_native_ge_half _ Hd). lra.
Qed.

Lemma X12_witness :
  exists x,
    best_hummer_q (first_frame small_native) small_native =
      ([Stdout_native_contacts (length (select_native_contacts_spec small_native))],
       inr [np.finite x]) /\
    1 / 2 <= x <= 1.
Proof.
  apply (X12_native_scores_at_least_half small_native).
  - exact small_frames.
  - exact small_has_contacts.
Defined.

(** ** The selection of protein atoms *)

(** X13. Only non-hydrogen atoms of protein residues occur in native
    contacts, and a structure without any protein residue has no pair to
    measure: the call raises ValueError before anything is written. *)
Theorem X13_protein_atoms_only (traj native : md.Trajectory) :
  (forall a, contact_atom native a ->
     (a < md.n_atoms native)%nat /\
     md.is_hydrogen (md.atom (md.topology native) a) = false /\
     md.is_protein (md.residue (md.atom (md.topology native) a)) = true) /\
  ((0 < md.n_frames native)%nat ->
   (forall a, (a < md.n_atoms native)%nat ->
              md.is_protein (md.residue (md.atom (md.topology native) a)) = false) ->
   md.select_atom_indices_heavy (md.topology native) = [] /\
   best_hummer_q traj native = ([], inl ValueError)).
Proof.
  split.
  - intros a [[i j] [Hin Ha]]. apply in_spec_contacts in Hin.
    unfold native_contact in Hin. simpl in Ha. destruct Ha; subst; tauto.
  - intros Hf Hnp.
    assert (md.select_atom_indices_heavy (md.topology native) = []) as Hh.
    { destruct (md.select_atom_indices_heavy (md.topology native)) as [|a l] eqn:E;
        [reflexivity|].
      assert (In a (md.select_atom_indices_heavy (md.topology native))) as Hin
        by (rewrite E; now left).
      apply in_heavy in Hin. destruct Hin as [Hlt Hh].
      apply heavy_iff in Hh. rewrite (Hnp a Hlt) in Hh. destruct Hh. discriminate. }
    split; [exact Hh|].
    apply best_hummer_q_no_pairs; [exact Hf|].
    unfold heavy_pairs_list. now rewrite Hh.
Qed.

Lemma X13_witness :
  md.select_atom_indices_heavy (md.topology water) = [] /\
  best_hummer_q small_native water = ([], inl ValueError).
Proof.
  apply (X13_protein_atoms_only small_native water).
  - simpl. lia.
  - intros a Ha. unfold md.n_atoms in Ha. simpl in Ha.
    destruct a as [|[|[|a]]]; try reflexivity. lia.
Defined.

(** ** Periodic boxes *)

Lemma wrap_small (len d : R) : Rabs d < len / 2 -> md.wrap len d = d.
Proof.
  intros H. pose proof (Rabs_pos d) as Hp.
  assert (0 < len) as Hl by lra.
  rewrite (wrap_near len d 0); [lra|].
  rewrite Rminus_0_r. unfold Rdiv at 1. rewrite Rabs_mult.
  rewrite (Rabs_pos_eq (/ len)) by (left; now apply Rinv_0_lt_compat).
  apply Rmult_lt_reg_r with len; [exact Hl|].
  rewrite Rmult_assoc, Rinv_l by lra. lra.
Qed.

(** Between two points less than half a box apart along every axis, the
    distance to the nearest image is the Euclidean distance. *)
Lemma minimum_image_within_half_box (box : md.Box) (a b : md.point) :
  within_half_box box a b -> md.minimum_image_distance box a b = md.distance a b.
Proof.
  destruct a as [[ax ay] az], b as [[bx by_] bz], box as [[lx ly] lz].
  unfold within_half_box, md.minimum_image_distance, md.distance.
  intros [Hx [Hy Hz]]. rewrite !wrap_small by assumption.
  f_equal. ring.
Qed.

(** X14. A periodic box so large that the atoms of every native contact
    are less than half a box apart in every frame does not change the
    result: the call returns what it returns without the unit cells. *)
Theorem X14_large_box (traj native : md.Trajectory) (box : nat -> md.Box) :
  md.unitcell_lengths traj = Some box ->
  (forall f p, (f < md.n_frames traj)%nat ->
               In p (select_native_contacts_spec native) ->
               within_half_box (box f) (md.xyz traj f (fst p)) (md.xyz traj f (snd p))) ->
  best_hummer_q traj native = best_hummer_q (without_unitcell traj) native.
Proof.
  intros Hb Hw. apply best_hummer_q_agree.
  - reflexivity.
  - reflexivity.
  - intros f p Hf Hp. unfold frame_distance.
    rewrite (pair_distance_cell _ _ _ _ Hb).
    rewrite minimum_image_within_half_box by now apply Hw.
    reflexivity.
Qed.

Lemma X14_witness :
  best_hummer_q small_boxed small_native =
  best_hummer_q (without_unitcell small_boxed) small_native.
Proof.
  apply (X14_large_box small_boxed small_native (fun _ => (2, 2, 2))).
  - reflexivity.
  - intros f p _ Hp. rewrite small_contacts in Hp. destruct Hp as [E|[]]. subst p.
    unfold within_half_box, small_boxed, small_frame, on_axis. simpl.
    repeat split; apply Rabs_def1; lra.
Defined.

(** ** The cutoff of the comparison *)


